(** * mcgtextension: the [mcgtable] fenced-block processor

  A shallow embedding of [src/mcgtextension.py].  The block processor
  recognises a fenced block tagged [mcgtable], pipes the text of the
  fenced region to an external program, parses what the program prints as
  XML, re-parses every table cell as Markdown and appends the table to the
  output tree.

  - Python [str] is [string]; the list of blocks is a [list string]
    indexed with stdpp's lookup and insert, with [IndexError] written out.
  - The two regular expressions are values of a small pattern type, run by
    a backtracking matcher that follows the priorities of Python's [re]
    (greedy repetition, leftmost match).
  - [run] lives in a state-and-exception monad over the objects it
    mutates (the block list, the parent element, the result queue) and a
    log of its calls to the outside world.  What the outside world
    answers (does [Popen] start, does a write or the close raise, what
    does the reader thread parse, what does the host's [parseChunk] do)
    is read from an environment [Env]. *)

From Stdlib Require Import ZArith Ascii String.
From stdpp Require Import base tactics option list strings.

Local Open Scope string_scope.

(** ** Strings *)

Module Str.

Fixpoint repeat (c : ascii) (n : nat) : string :=
  match n with
  | O => EmptyString
  | S n' => String c (repeat c n')
  end.

Fixpoint drop (n : nat) (s : string) : string :=
  match n, s with
  | S n', String _ s' => drop n' s'
  | _, _ => s
  end.

(** [suffix t s]: [t] is what is left of [s] after dropping some
    characters from its front. *)
Definition suffix (t s : string) : Prop := exists p, s = p +:+ t.

End Str.


(** ** The subset of Python's [re] the module uses

  Both patterns are sequences of single characters, greedy repetitions
  [c{n,}] of a single character or class, and the end anchor [$].  A
  leading [^] is the flag [bol].  No flag is passed to [re], so [^]
  matches only at the start of the string and [$] at the end of the string
  or just before a newline that ends it. *)

Module Re.

Inductive atom :=
| Lit (c : ascii)      (* a literal character *)
| Space.               (* the class \s *)

Inductive item :=
| One (a : atom)                 (* a *)
| AtLeast (n : nat) (a : atom)   (* a{n,}, greedy; a* is AtLeast 0 a *)
| Eos.                           (* $ *)

Record pattern := Pattern { bol : bool; body : list item }.

(** [\s] on a [str] pattern is [str.isspace] on the character; on the
    code points below 256 these are TAB..CR, FS..US, the space, NEL
    (0x85) and NBSP (0xA0). *)
Definition isspace (c : ascii) : bool :=
  let n := nat_of_ascii c in
  (((9 <=? n) && (n <=? 13)) || ((28 <=? n) && (n <=? 32))
   || (n =? 133) || (n =? 160))%nat.

Definition accepts (a : atom) (c : ascii) : bool :=
  match a with
  | Lit x => Ascii.eqb x c
  | Space => isspace c
  end.

Definition newline : ascii := "010"%char.

(** [$] without re.MULTILINE. *)
Definition at_eos (s : string) : bool :=
  match s with
  | EmptyString => true
  | String c EmptyString => Ascii.eqb c newline
  | _ => false
  end.

(** Greedy [a{n,}] followed by the rest of the pattern [k]: take as many
    characters as possible and give them back one at a time while [k]
    fails, never going below [n]. *)
Fixpoint rep (a : atom) (n : nat) (k : string -> option string)
    (s : string) : option string :=
  match s with
  | String c s' =>
      if accepts a c then
        match rep a (Nat.pred n) k s' with
        | Some r => Some r
        | None => if (n =? 0)%nat then k s else None
        end
      else if (n =? 0)%nat then k s else None
  | EmptyString => if (n =? 0)%nat then k s else None
  end.

(** [items its s] matches the items at the start of [s] and returns what is
    left of [s] after the match. *)
Fixpoint items (its : list item) (s : string) : option string :=
  match its with
  | [] => Some s
  | One a :: its' =>
      match s with
      | String c s' => if accepts a c then items its' s' else None
      | EmptyString => None
      end
  | AtLeast n a :: its' => rep a n (items its') s
  | Eos :: its' => if at_eos s then items its' s else None
  end.

(** A match attempt at one position; [bos] tells whether the position is
    the start of the string.  The result is the length of the match. *)
Definition at_pos (p : pattern) (bos : bool) (s : string) : option nat :=
  if bol p && negb bos then None
  else (fun r => String.length s - String.length r) <$> items (body p) s.

(** [re.match(p, s)]: a match at the start of [s], as the end offset of
    the match object, or [None]. *)
Definition re_match (p : pattern) (s : string) : option nat :=
  at_pos p true s.

(** [re.search(p, s)]: the leftmost position with a match, as the pair
    (start, end) of the match object, or [None]. *)
Fixpoint search_from (p : pattern) (bos : bool) (s : string)
    : option (nat * nat) :=
  match at_pos p bos s with
  | Some n => Some (0, n)
  | None =>
      match s with
      | String _ s' =>
          (fun '(i, j) => (S i, S j)) <$> search_from p false s'
      | EmptyString => None
      end
  end.

Definition re_search (p : pattern) (s : string) : option (nat * nat) :=
  search_from p true s.

(** [re.sub(p, '', s)]: every non-overlapping match, leftmost first, is
    removed.  [skip] counts the characters of the current match that are
    still to be dropped.  An empty match removes nothing (neither pattern
    of this module has one, see [start_shorter] and [end_shorter]). *)
Fixpoint sub_from (p : pattern) (bos : bool) (skip : nat) (s : string)
    : string :=
  match s with
  | EmptyString => EmptyString
  | String c s' =>
      match skip with
      | S n => sub_from p false n s'
      | O =>
          match at_pos p bos s with
          | Some (S n) => sub_from p false n s'
          | _ => String c (sub_from p false 0 s')
          end
      end
  end.

Definition re_sub (p : pattern) (s : string) : string :=
  sub_from p true 0 s.

Definition lits (s : string) : list item :=
  (fun c => One (Lit c)) <$> list_ascii_of_string s.

(** [t] does not start with the character [c]. *)
Definition stops (c : ascii) (t : string) : Prop :=
  match t with
  | String x _ => x <> c
  | EmptyString => True
  end.

End Re.

(** ** xml.etree.ElementTree

    An element carries a tag, attributes, text, tail and children.  The
    document parsed from the child's output is a tree without sharing, so a
    cell object is identified by its index path from the root; mutating the
    cell in place is replacing the subtree at that path. *)

Module ET.

#[warnings="-register-all"]
Inductive Element := mkElement {
  tag : string;
  attrib : list (string * string);
  text : option string;
  tail : option string;
  children : list Element
}.

Record ElementTree := mkElementTree { getroot : Element }.

(** cell.text = t *)
Definition set_text (el : Element) (t : option string) : Element :=
  mkElement (tag el) (attrib el) t (tail el) (children el).

Definition set_children (el : Element) (cs : list Element) : Element :=
  mkElement (tag el) (attrib el) (text el) (tail el) cs.

(** parent.append(child) *)
Definition append (el child : Element) : Element :=
  set_children el (children el ++ [child]).

(** The element at an index path below [el]. *)
Fixpoint get_at (p : list nat) (el : Element) : option Element :=
  match p with
  | [] => Some el
  | i :: p' =>
      match children el !! i with
      | Some c => get_at p' c
      | None => None
      end
  end.

(** [el] with the element at the index path replaced by [new]. *)
Fixpoint set_at (p : list nat) (new : Element) (el : Element) : Element :=
  match p with
  | [] => new
  | i :: p' =>
      match children el !! i with
      | Some c => set_children el (<[i := set_at p' new c]> (children el))
      | None => el
      end
  end.

(** [Element.findall(path)] for a path of plain tags, ['a/b/c'] being
    [["a"; "b"; "c"]]: the elements reached from [el] through children with
    these tags, in document order, each as its index path. *)
Fixpoint findall_from (path : list string) (el : Element)
    : list (list nat) :=
  match path with
  | [] => [[]]
  | t :: path' =>
      mjoin (imap
        (fun i c =>
           if String.eqb (tag c) t then cons i <$> findall_from path' c
           else [])
        (children el))
  end.

(** [ElementTree.findall(path)] searches from the root element. *)
Definition findall (e : ElementTree) (path : list string)
    : list (list nat) :=
  findall_from path (getroot e).

End ET.

Export ET.

(** ** Exceptions, the outside world and the state of a call *)

(** The exceptions [run] can see.  [BrokenPipeError] is the subclass of
    [OSError] that the first [except] clause names; [OSError errno] stands
    for every other [OSError] (a [FileNotFoundError] from [Popen] is
    [OSError ENOENT]); [Exception] is anything that is not an [OSError]. *)
Inductive exn :=
| BrokenPipeError
| OSError (errno : Z)
| IndexError
| Exception (name : string).

(** errno.ENOENT and errno.EINVAL *)
Definition ENOENT : Z := 2.
Definition EINVAL : Z := 22.

Inductive outcome (A : Type) :=
| Return (a : A)
| Raise (e : exn).

Arguments Return {A} a.
Arguments Raise {A} e.

(** The calls [run] makes to the outside world, in the order it makes
    them.  Children are numbered in the order of their launch. *)
Inductive Event :=
| Popen (child : nat) (cmd : list string) (shell : bool)
| ThreadStart (child : nat)
| StdinWrite (child : nat) (data : string)
| StdinClose (child : nat)
| ThreadJoin (child : nat)
| ParseChunk (cell : Element) (txt : option string).

(** What the outside world answers.
    - [popen_raises n]: the exception [subprocess.Popen] raises at the
      launch of child [n], if any;
    - [write_raises n w]: the exception raised by the [w]-th call of
      [proc.stdin.write] on child [n], if any;
    - [close_raises n]: the exception raised by [proc.stdin.close()];
    - [parse_stdout n]: the document [etree.parse] builds from the output
      of child [n]; [None] when the parse raises in the reader thread, which
      then ends without a [put];
    - [parseChunk cell txt]: the host's [self.parser.parseChunk]; it may
      raise, and otherwise leaves the cell in the state it returns. *)
Record Env := mkEnv {
  popen_raises : nat -> option exn;
  write_raises : nat -> nat -> option exn;
  close_raises : nat -> option exn;
  parse_stdout : nat -> option ElementTree;
  parseChunk : Element -> option string -> outcome Element
}.

(** The objects [run] works on: the list [blocks] and the element [parent]
    of the caller, the queue [result], the log of calls and the number
    [spawned] of calls of [Popen] made so far, which numbers the children
    (a launch that raises has used its number). *)
Record State := mkState {
  blocks : list string;
  parent : Element;
  result : list ElementTree;
  log : list Event;
  spawned : nat
}.

Definition set_blocks (st : State) (bs : list string) : State :=
  mkState bs (parent st) (result st) (log st) (spawned st).

Definition set_parent (st : State) (el : Element) : State :=
  mkState (blocks st) el (result st) (log st) (spawned st).

Definition set_result (st : State) (q : list ElementTree) : State :=
  mkState (blocks st) (parent st) q (log st) (spawned st).

Definition add_log (st : State) (ev : Event) : State :=
  mkState (blocks st) (parent st) (result st) (log st ++ [ev]) (spawned st).

Definition add_child (st : State) : State :=
  mkState (blocks st) (parent st) (result st) (log st) (S (spawned st)).

(** State and exceptions: a computation returns or raises, and leaves a
    state either way (a mutation made before a [raise] stays). *)
Definition M (A : Type) : Type := State -> outcome A * State.

#[global] Instance M_ret : MRet M := fun A a st => (Return a, st).

#[global] Instance M_bind : MBind M := fun A B f m st =>
  match m st with
  | (Return a, st') => f a st'
  | (Raise e, st') => (Raise e, st')
  end.

Definition raise {A} (e : exn) : M A := fun st => (Raise e, st).

Definition lift {A} (o : outcome A) : M A := fun st => (o, st).

(** blocks[i] *)
Definition get_item (i : nat) : M string := fun st =>
  match blocks st !! i with
  | Some b => (Return b, st)
  | None => (Raise IndexError, st)
  end.

(** blocks[i] = v *)
Definition set_item (i : nat) (v : string) : M unit := fun st =>
  match blocks st !! i with
  | Some _ => (Return (), set_blocks st (<[i := v]> (blocks st)))
  | None => (Raise IndexError, st)
  end.

(** blocks.pop(0) *)
Definition pop0 : M string := fun st =>
  match blocks st with
  | b :: bs => (Return b, set_blocks st bs)
  | [] => (Raise IndexError, st)
  end.

(** len(blocks) *)
Definition len_blocks : M nat := fun st => (Return (length (blocks st)), st).

(** parent.append(child) *)
Definition parent_append (child : Element) : M unit := fun st =>
  (Return (), set_parent st (append (parent st) child)).

(** if not result.empty(): e = result.get(block=False) *)
Definition queue_get : M (option ElementTree) := fun st =>
  match result st with
  | [] => (Return None, st)
  | e :: q => (Return (Some e), set_result st q)
  end.

Definition call (ev : Event) : M unit := fun st => (Return (), add_log st ev).

Definition answer (o : option exn) : M unit :=
  match o with
  | None => mret ()
  | Some e => raise e
  end.

(** try: body, except BrokenPipeError: pass,
    except OSError as exc: if exc.errno == errno.EINVAL: pass, else: raise *)
Definition try_close (body : M unit) : M unit := fun st =>
  match body st with
  | (Raise BrokenPipeError, st') => (Return (), st')
  | (Raise (OSError errno), st') =>
      if (errno =? EINVAL)%Z then (Return (), st')
      else (Raise (OSError errno), st')
  | r => r
  end.

(** Python truthiness of a match object or [None]. *)
Definition truthy {A} (o : option A) : bool :=
  match o with
  | Some _ => true
  | None => false
  end.

(** ** The block processor *)

Definition space : ascii := " "%char.
Definition backtick : ascii := "`"%char.
Definition nl : string := String Re.newline "".

(** RE_CODE_BLK_START = r'^ *`{3,}mcgtable *\n' *)
Definition RE_CODE_BLK_START : Re.pattern :=
  Re.Pattern true
    ([Re.AtLeast 0 (Re.Lit space); Re.AtLeast 3 (Re.Lit backtick)]
       ++ Re.lits "mcgtable"
       ++ [Re.AtLeast 0 (Re.Lit space); Re.One (Re.Lit Re.newline)]).

(** RE_CODE_BLK_END = r'\n *`{3,}\s*$' *)
Definition RE_CODE_BLK_END : Re.pattern :=
  Re.Pattern false
    [Re.One (Re.Lit Re.newline); Re.AtLeast 0 (Re.Lit space);
     Re.AtLeast 3 (Re.Lit backtick); Re.AtLeast 0 Re.Space; Re.Eos].

(** def test(self, parent, block): the match object of the opening fence at
    the start of the block (its end offset), or [None]. *)
Definition test (parent : Element) (block : string) : M (option nat) :=
  mret (Re.re_match RE_CODE_BLK_START block).

(** "lua mcell-grid-table.lua -t html".split() *)
Definition cmd : list string := String.words "lua mcell-grid-table.lua -t html".

(** subprocess.Popen(cmd, shell=..., stdin=PIPE, stdout=PIPE,
    stderr=DEVNULL, universal_newlines=True): the number of the child. *)
Definition popen (env : Env) (args : list string) (shell : bool) : M nat :=
  fun st =>
    let n := spawned st in
    let st' := add_child (add_log st (Popen n args shell)) in
    match popen_raises env n with
    | None => (Return n, st')
    | Some e => (Raise e, st')
    end.

(** proc.stdin.write(data), the [w]-th write on the child *)
Definition stdin_write (env : Env) (n w : nat) (data : string) : M unit :=
  call (StdinWrite n data);; answer (write_raises env n w).

(** proc.stdin.close() *)
Definition stdin_close (env : Env) (n : nat) : M unit :=
  call (StdinClose n);; answer (close_raises env n).

(** t.join(): when the thread has ended, the queue holds what
    [mcgt_xml_parse_task] has put, that is the parsed document unless
    [etree.parse] raised.  The queue is local to [run], which reads it
    after the join only (line 77); the put, which the thread makes at some
    moment between [t.start()] and the end of [t.join()], is made here. *)
Definition join (env : Env) (n : nat) : M unit := fun st =>
  let st' := add_log st (ThreadJoin n) in
  (Return (),
   set_result st' (result st' ++ option_list (parse_stdout env n))).

(** for i in range(0, block_num + 1):
        proc.stdin.write(blocks[i]); proc.stdin.write("\n\n")
    as [feed env n (block_num + 1) 0]: [count] blocks are still to be written,
    from index [i] on; each block is read from the list when its turn
    comes. *)
Fixpoint feed (env : Env) (n : nat) (count : nat) (i : nat) : M unit :=
  match count with
  | O => mret ()
  | S count' =>
      b ← get_item i;
      stdin_write env n (2 * i) b;;
      stdin_write env n (2 * i + 1) (nl +:+ nl);;
      feed env n count' (S i)
  end.

(** The body of one of the six loops, for the cell at index path [p]:
        txt = cell.text; cell.text = ""; self.parser.parseChunk(cell, txt) *)
Definition parse_cell (env : Env) (e : ElementTree) (p : list nat)
    : M ElementTree :=
  match get_at p (getroot e) with
  | Some cell =>
      let txt := text cell in
      let cell := set_text cell (Some "") in
      call (ParseChunk cell txt);;
      cell ← lift (parseChunk env cell txt);
      mret (mkElementTree (set_at p cell (getroot e)))
  | None => mret e
  end.

Fixpoint for_cells (env : Env) (ps : list (list nat)) (e : ElementTree)
    : M ElementTree :=
  match ps with
  | [] => mret e
  | p :: ps' => e ← parse_cell env e p; for_cells env ps' e
  end.

(** for cell in e.findall(path): ... *)
Definition parse_cells (env : Env) (path : list string) (e : ElementTree)
    : M ElementTree :=
  for_cells env (findall e path) e.

(** for i in range(0, count): blocks.pop(0) *)
Fixpoint pop_blocks (count : nat) : M unit :=
  match count with
  | O => mret ()
  | S count' => pop0;; pop_blocks count'
  end.

(** The six loops over the cells, lines 81 to 104. *)
Definition parse_all_cells (env : Env) (e : ElementTree) : M ElementTree :=
  e ← parse_cells env ["thead"; "tr"; "th"] e;
  e ← parse_cells env ["thead"; "tr"; "td"] e;
  e ← parse_cells env ["tbody"; "tr"; "th"] e;
  e ← parse_cells env ["tbody"; "tr"; "td"] e;
  e ← parse_cells env ["tfoot"; "tr"; "th"] e;
  parse_cells env ["tfoot"; "tr"; "td"] e.

(** The body of [if re.search(self.RE_CODE_BLK_END, block):] after the
    closing marker is removed, lines 47 to 116.  [Some True] is
    [return True]; [None] is falling out of the [if], back to the loop. *)
Definition render (env : Env) (block_num : nat) : M (option bool) :=
  n ← popen env cmd false;
  call (ThreadStart n);;
  feed env n (block_num + 1) 0;;
  try_close (stdin_close env n);;
  join env n;;
  got ← queue_get;
  match got with
  | Some e =>
      e ← parse_all_cells env e;
      parent_append (getroot e);;
      pop_blocks (block_num + 1);;
      mret (Some true)
  | None => mret None
  end.

(** for block_num, block in enumerate(blocks): the list iterator reads
    [blocks[block_num]] from the list as it is at that moment and stops
    when the index is past the end.  [todo] bounds the number of iterations;
    [run] passes the length of the list, which the loop does not change
    before it returns, so the bound never ends the loop early
    ([for_blocks_bound]). *)
Fixpoint for_blocks (env : Env) (todo : nat) (block_num : nat)
    : M (option bool) :=
  match todo with
  | O => mret None
  | S todo' => fun st =>
      match blocks st !! block_num with
      | None => (Return None, st)
      | Some block =>
          if truthy (Re.re_search RE_CODE_BLK_END block) then
            (set_item block_num (Re.re_sub RE_CODE_BLK_END block);;
             r ← render env block_num;
             match r with
             | Some b => mret (Some b)
             | None => for_blocks env todo' (S block_num)
             end) st
          else for_blocks env todo' (S block_num) st
      end
  end.

(** The body of [run], lines 31 to 120; the queue of line 31 is the empty
    [result] of the initial state. *)
Definition run_body (env : Env) : M bool :=
  original_block ← get_item 0;
  b ← get_item 0;
  set_item 0 (Re.re_sub RE_CODE_BLK_START b);;
  len ← len_blocks;
  r ← for_blocks env len 0;
  match r with
  | Some b => mret b
  | None => set_item 0 original_block;; mret false
  end.

(** def run(self, parent, blocks): the returned value or the exception, and
    the state of [parent] and [blocks] the caller is left with. *)
Definition run (env : Env) (parent : Element) (blocks : list string)
    : outcome bool * State :=
  run_body env (mkState blocks parent [] [] 0).

(** ** Vocabulary of the statements *)

(** The text of a block up to its first newline. *)
Fixpoint first_line (b : string) : string :=
  match b with
  | EmptyString => EmptyString
  | String c b' =>
      if Ascii.eqb c Re.newline then EmptyString
      else String c (first_line b')
  end.

(** A line of the form [ *`{3,}mcgtable *]: spaces, three or more
    backticks, the word [mcgtable], spaces. *)
Definition fence_line (l : string) : Prop :=
  exists i n j, 3 <= n /\
    l = Str.repeat space i +:+ Str.repeat backtick n +:+ "mcgtable"
        +:+ Str.repeat space j.

(** The block contains the closing fence: [re.search] finds it. *)
Definition has_end (b : string) : bool :=
  truthy (Re.re_search RE_CODE_BLK_END b).

(** What [run] leaves of a block once its loop has passed it: the closing
    fence is removed where there is one. *)
Definition strip_end (b : string) : string :=
  if has_end b then Re.re_sub RE_CODE_BLK_END b else b.

(** The block list once line 35 has removed the opening fence from its
    first block. *)
Definition opened (bs : list string) : list string :=
  match bs with
  | b :: rest => Re.re_sub RE_CODE_BLK_START b :: rest
  | [] => []
  end.

Fixpoint count_ends (bs : list string) : nat :=
  match bs with
  | [] => 0
  | b :: bs' => (if has_end b then 1 else 0) + count_ends bs'
  end.

(** The number of blocks with a closing fence before index [k]: the number
    of children launched when the loop arrives at block [k]. *)
Definition closers_before (bs : list string) (k : nat) : nat :=
  count_ends (take k bs).

(** The blocks when the loop arrives at block [k]. *)
Definition blocks_at (bs : list string) (k : nat) : list string :=
  (strip_end <$> take k bs) ++ drop k bs.

(** [proc.stdin.close()] returns, or raises what the handler lets pass. *)
Definition benign (o : option exn) : bool :=
  match o with
  | None => true
  | Some BrokenPipeError => true
  | Some (OSError errno) => (errno =? EINVAL)%Z
  | Some _ => false
  end.

(** Child [n] is launched and takes all that is written to it. *)
Definition starts (env : Env) (n : nat) : Prop :=
  popen_raises env n = None /\ forall w, write_raises env n w = None.

(** Child [n] runs without an exception reaching [run], and prints nothing
    that parses. *)
Definition quiet (env : Env) (n : nat) : Prop :=
  starts env n /\ benign (close_raises env n) = true
  /\ parse_stdout env n = None.

(** The loop of [run], on the opened blocks [bs], arrives at block [k] with
    [n] children behind it and launches child [n] there: block [k] has a
    closing fence, [n] earlier blocks had one, and each of these children
    was quiet. *)
Definition reaches (env : Env) (bs : list string) (k n : nat) : Prop :=
  (exists b, bs !! k = Some b /\ has_end b = true)
  /\ n = closers_before bs k
  /\ forall m, m < n -> quiet env m.

(** What is written to child [n] for the blocks [bs]. *)
Fixpoint feed_log (n : nat) (bs : list string) : list Event :=
  match bs with
  | [] => []
  | b :: bs' => StdinWrite n b :: StdinWrite n (nl +:+ nl) :: feed_log n bs'
  end.

(** The calls of one iteration that launches child [n], feeds it the
    blocks [bs] and joins the reader. *)
Definition attempt_log (n : nat) (bs : list string) : list Event :=
  [Popen n cmd false; ThreadStart n] ++ feed_log n bs
    ++ [StdinClose n; ThreadJoin n].

(** The calls made before the loop arrives at block [k], when all children
    so far were quiet. *)
Fixpoint quiet_log (bs : list string) (k : nat) : list Event :=
  match k with
  | O => []
  | S k' =>
      quiet_log bs k' ++
      match bs !! k' with
      | Some b =>
          if has_end b
          then attempt_log (closers_before bs k') (strip_end <$> take k bs)
          else []
      | None => []
      end
  end.

Definition add_logs (st : State) (l : list Event) : State :=
  mkState (blocks st) (parent st) (result st) (log st ++ l) (spawned st).

(** The tag paths of the six loops, in the order of the loops. *)
Definition cell_paths : list (list string) :=
  [["thead"; "tr"; "th"]; ["thead"; "tr"; "td"];
   ["tbody"; "tr"; "th"]; ["tbody"; "tr"; "td"];
   ["tfoot"; "tr"; "th"]; ["tfoot"; "tr"; "td"]].

(** The six loops as one loop over [cell_paths]. *)
Fixpoint for_paths (env : Env) (paths : list (list string))
    (e : ElementTree) : M ElementTree :=
  match paths with
  | [] => mret e
  | path :: paths' => e ← parse_cells env path e; for_paths env paths' e
  end.






(** ** Invariants of the log *)

(** The child an event belongs to; [parseChunk] is a call to the host. *)
Definition child_of (ev : Event) : option nat :=
  match ev with
  | Popen c _ _ | ThreadStart c | StdinWrite c _ | StdinClose c
  | ThreadJoin c => Some c
  | ParseChunk _ _ => None
  end.


(** An event that [run] can log once [lo] children have been launched: it
    belongs to a child numbered [lo] or more, and a launch is a launch of
    [cmd] without a shell. *)
Definition ok_event (lo : nat) (ev : Event) : Prop :=
  match ev with
  | Popen c args shell => lo <= c /\ args = cmd /\ shell = false
  | ThreadStart c | StdinWrite c _ | StdinClose c | ThreadJoin c => lo <= c
  | ParseChunk _ _ => True
  end.

(** [st'] comes after [st]: the log has grown by events that are
    [ok_event lo], and no child has been forgotten. *)
Definition extends (lo : nat) (st st' : State) : Prop :=
  spawned st <= spawned st' /\
  exists l, log st' = (log st ++ l)%list /\ Forall (ok_event lo) l.

(** A computation that only extends the state it is run in, whether it
    returns or raises, and whose results satisfy [R]. *)
Definition tracked (lo : nat) {A} (m : M A) (R : A -> Prop) : Prop :=
  forall st, lo <= spawned st ->
    extends lo st (m st).2 /\ forall a, (m st).1 = Return a -> R a.

(** [env] with the close of the input of child [n] answering [o]. *)
Definition with_close (env : Env) (n : nat) (o : option exn) : Env :=
  mkEnv (popen_raises env) (write_raises env)
    (fun m => if decide (m = n) then o else close_raises env m)
    (parse_stdout env) (parseChunk env).

(** errno.EIO *)
Definition EIO : Z := 5.



(** A computation that leaves the list of blocks alone. *)
Definition keeps {A} (m : M A) : Prop :=
  forall st, blocks (m st).2 = blocks st.

(** ** Vocabulary of the further properties *)

(** The number of launches in a log. *)
Fixpoint launches (l : list Event) : nat :=
  match l with
  | [] => 0
  | Popen _ _ _ :: l' => S (launches l')
  | _ :: l' => launches l'
  end.

(** An exception that the outside world has raised into [run]: at a
    launch, at a write, at a close (and not one the handler swallows) or in
    the host parser. *)
Definition from_env (env : Env) (e : exn) : Prop :=
  (exists n, popen_raises env n = Some e)
  \/ (exists n w, write_raises env n w = Some e)
  \/ (exists n, close_raises env n = Some e /\ benign (Some e) = false)
  \/ (exists c t, parseChunk env c t = Raise e).

(** Between [st] and [st'] only calls other than launches were logged. *)
Definition calm (st st' : State) : Prop :=
  blocks st' = blocks st /\ parent st' = parent st
  /\ result st' = result st /\ spawned st' = spawned st
  /\ launches (log st') = launches (log st).

(** [bs'] is [bs] after the loop has worked on the blocks from index [i]
    on: the same number of blocks, each one as it was or, from [i] on and
    if it had a closing fence, without that fence. *)
Definition worn (i : nat) (bs bs' : list string) : Prop :=
  length bs' = length bs
  /\ forall j b, bs !! j = Some b ->
       bs' !! j = Some b
       \/ (i <= j /\ has_end b = true /\ bs' !! j = Some (strip_end b)).

(** Every character of [w] is white space for [\s]. *)
Fixpoint blank (w : string) : bool :=
  match w with
  | EmptyString => true
  | String c w' => Re.isspace c && blank w'
  end.

(** A closing fence that ends the text: a newline, spaces, three or more
    backticks, then white space only. *)
Definition closing_fence (t : string) : Prop :=
  exists i n w, 3 <= n /\ blank w = true /\
    t = nl +:+ Str.repeat space i +:+ Str.repeat backtick n +:+ w.

(** A call of the iteration that launches child [n]: a call that concerns
    child [n], or a call of the host parser on a cell whose text has been
    set to the empty string. *)
Definition in_turn (n : nat) (ev : Event) : Prop :=
  match ev with
  | ParseChunk c _ => text c = Some ""
  | _ => child_of ev = Some n
  end.

(** The calls of [l] that concern a child concern children numbered [lo]
    or more, and never an earlier child after a later one. *)
Fixpoint serial (lo : nat) (l : list Event) : Prop :=
  match l with
  | [] => True
  | ev :: l' =>
      match child_of ev with
      | Some c => lo <= c /\ serial c l'
      | None => serial lo l'
      end
  end.

(** The calls of [l] concern children numbered below [hi]. *)
Definition below (hi : nat) (l : list Event) : Prop :=
  Forall (fun ev => forall c, child_of ev = Some c -> c < hi) l.

(** The host parser is called on cells whose text is the empty string. *)
Definition emptied (l : list Event) : Prop :=
  Forall (fun ev => forall c t, ev = ParseChunk c t -> text c = Some "") l.

(** A computation of the iteration that has launched child [n]: it
    launches nothing, and what it adds to the log is [in_turn n]. *)
Definition turn (n : nat) {A} (m : M A) : Prop :=
  forall st,
    spawned (m st).2 = spawned st
    /\ exists l, log (m st).2 = (log st ++ l)%list /\ Forall (in_turn n) l.

(** ** Sample data *)

Module Sample.

Definition div : Element := mkElement "div" [] None None [].

Definition state0 : State := mkState [] div [] [] 0.

(** A block that is the opening fence line and nothing else. *)
Definition bare_fence : string := "```mcgtable".

Definition el (t : string) (x : option string) (cs : list Element)
    : Element :=
  mkElement t [] x None cs.

(** <table><thead><tr><th>a</th><th>b</th></tr></thead>
           <tbody><tr><td>1</td><td/></tr></tbody></table> *)
Definition table : ElementTree :=
  mkElementTree
    (el "table" None
       [el "thead" None
          [el "tr" None [el "th" (Some "a") []; el "th" (Some "b") []]];
        el "tbody" None
          [el "tr" None [el "td" (Some "1") []; el "td" None []]]]).

(** A host parser that puts the text of the cell in a paragraph below
    it. *)
Definition paragraph (cell : Element) (txt : option string)
    : outcome Element :=
  Return (set_children cell (children cell ++ [el "p" txt []])).

(** A host parser that does what Python does on [None.split]. *)
Definition strict (cell : Element) (txt : option string)
    : outcome Element :=
  match txt with
  | Some _ => paragraph cell txt
  | None => Raise (Exception "AttributeError")
  end.

(** The executable is not there: every launch raises. *)
Definition env_missing : Env :=
  mkEnv (fun _ => Some (OSError ENOENT)) (fun _ _ => None) (fun _ => None)
    (fun _ => None) strict.

(** Every child runs and prints nothing that parses. *)
Definition env_silent : Env :=
  mkEnv (fun _ => None) (fun _ _ => None) (fun _ => None)
    (fun _ => None) strict.

(** Every child prints the table. *)
Definition env_table : Env :=
  mkEnv (fun _ => None) (fun _ _ => None) (fun _ => None)
    (fun _ => Some table) paragraph.


(** A fenced region in one block. *)
Definition one_block : list string :=
  ["```mcgtable" +:+ nl +:+ "a|b" +:+ nl +:+ "```"].

(** A fenced region over two blocks, and a block after it. *)
Definition region : list string :=
  ["```mcgtable" +:+ nl +:+ "a|b"; "1|2" +:+ nl +:+ "```"; "after"].

(** An opening fence that is never closed. *)
Definition unclosed : list string :=
  ["```mcgtable" +:+ nl +:+ "a|b"; "1|2"; "after"].

(** Two blocks that both end in a closing fence. *)
Definition two_fences : list string :=
  ["```mcgtable" +:+ nl +:+ "a" +:+ nl +:+ "```"; "b" +:+ nl +:+ "```"].

(** A fenced region with nothing in it, in one block. *)
Definition empty_region : list string :=
  ["```mcgtable" +:+ nl +:+ "```"].

(** Every child is launched and takes one write; the second write finds
    the pipe broken. *)
Definition env_deaf : Env :=
  mkEnv (fun _ => None)
    (fun _ w => if (w =? 1)%nat then Some BrokenPipeError else None)
    (fun _ => None) (fun _ => Some table) paragraph.

End Sample.

(** * Facts *)

Module StrFacts.
Import Str.

Lemma app_cons x (a b : string) : String x a +:+ b = String x (a +:+ b).
Proof. reflexivity. Qed.

Lemma app_nil_l (a : string) : "" +:+ a = a.
Proof. reflexivity. Qed.

Lemma app_assoc (a b c : string) : (a +:+ b) +:+ c = a +:+ (b +:+ c).
Proof.
  induction a as [|x a IH]; [done |]. by rewrite !app_cons, IH.
Qed.

Lemma app_nil_r (a : string) : a +:+ "" = a.
Proof. induction a as [|x a IH]; [done |]. by rewrite app_cons, IH. Qed.

Lemma length_app (a b : string) :
  String.length (a +:+ b) = String.length a + String.length b.
Proof.
  induction a as [|x a IH]; [done |]. rewrite app_cons. cbn. by rewrite IH.
Qed.

Lemma length_repeat c n : String.length (repeat c n) = n.
Proof. induction n as [|n IH]; cbn; [done | by f_equal]. Qed.

Lemma suffix_refl s : suffix s s.
Proof. by exists "". Qed.

Lemma suffix_cons c t s : suffix t s -> suffix t (String c s).
Proof. intros [p ->]. by exists (String c p). Qed.

Lemma suffix_trans a b c : suffix a b -> suffix b c -> suffix a c.
Proof. intros [p ->] [q ->]. exists (q +:+ p). by rewrite app_assoc. Qed.

Lemma suffix_length t s : suffix t s -> String.length t <= String.length s.
Proof. intros [p ->]. rewrite length_app. lia. Qed.

Lemma drop_0 s : drop 0 s = s.
Proof. by destruct s. Qed.

Lemma drop_app_length p t : drop (String.length p) (p +:+ t) = t.
Proof.
  induction p as [|x p IH]; [apply drop_0 |]. by rewrite app_cons.
Qed.

Lemma suffix_nil t : suffix t "" -> t = "".
Proof. intros [[|x p] H]; [done | by rewrite app_cons in H]. Qed.

Lemma suffix_drop t s :
  suffix t s -> drop (String.length s - String.length t) s = t.
Proof.
  intros [p ->]. rewrite length_app.
  replace (String.length p + String.length t - String.length t)
    with (String.length p) by lia.
  apply drop_app_length.
Qed.

End StrFacts.

Module ReFacts.
Import Re.

Lemma accepts_lit c x : accepts (Lit c) x = true <-> x = c.
Proof.
  cbn. rewrite Ascii.eqb_eq. split; congruence.
Qed.

Lemma rep_lit_inv c k s : forall n r,
  rep (Lit c) n k s = Some r ->
  exists i t, n <= i /\ s = Str.repeat c i +:+ t /\ k t = Some r.
Proof.
  induction s as [|x s IH]; intros n r H; cbn [rep] in H.
  - destruct (Nat.eqb_spec n 0) as [->|]; [|done].
    exists 0, "". by repeat split.
  - destruct (accepts (Lit c) x) eqn:Hx.
    + apply accepts_lit in Hx as ->.
      destruct (rep (Lit c) (Nat.pred n) k s) as [r'|] eqn:Hr.
      * injection H as ->.
        destruct (IH _ _ Hr) as (i & t & Hi & -> & Hk).
        exists (S i), t. split_and!; [lia | done | done].
      * destruct (Nat.eqb_spec n 0) as [->|]; [|done].
        exists 0, (String c s). by repeat split.
    + destruct (Nat.eqb_spec n 0) as [->|]; [|done].
      exists 0, (String x s). by repeat split.
Qed.

Lemma rep_lit_greedy c k t r : forall i n,
  n <= i -> stops c t -> k t = Some r ->
  rep (Lit c) n k (Str.repeat c i +:+ t) = Some r.
Proof.
  induction i as [|i IH]; intros n Hn Ht Hk.
  - assert (n = 0) as -> by lia. rewrite StrFacts.app_nil_l.
    destruct t as [|x t]; cbn [rep]; [done |].
    destruct (accepts (Lit c) x) eqn:Hx; [|done].
    apply accepts_lit in Hx. by destruct Ht.
  - cbn [Str.repeat]. rewrite StrFacts.app_cons. cbn [rep].
    replace (accepts (Lit c) c) with true
      by (symmetry; by apply accepts_lit).
    rewrite IH; [done | lia | done | done].
Qed.

Lemma items_lits_inv w its : forall s r,
  items (lits w ++ its) s = Some r ->
  exists t, s = w +:+ t /\ items its t = Some r.
Proof.
  induction w as [|x w IH]; intros s r H.
  - by exists s.
  - cbn in H. destruct s as [|y s]; [done |].
    destruct (Ascii.eqb_spec x y) as [->|]; [|done].
    destruct (IH _ _ H) as (t & -> & Ht). by exists t.
Qed.

Lemma items_lits w its t : items (lits w ++ its) (w +:+ t) = items its t.
Proof.
  induction w as [|x w IH]; [done |].
  rewrite StrFacts.app_cons. cbn. by rewrite Ascii.eqb_refl.
Qed.

(** A match consumes a prefix: what [items] returns is a suffix. *)
Lemma rep_suffix a k :
  (forall s r, k s = Some r -> Str.suffix r s) ->
  forall s n r, rep a n k s = Some r -> Str.suffix r s.
Proof.
  intros Hk. induction s as [|x s IH]; intros n r H; cbn [rep] in H.
  - destruct (n =? 0)%nat; [by apply Hk | done].
  - destruct (accepts a x).
    + destruct (rep a (Nat.pred n) k s) as [r'|] eqn:Hr.
      * injection H as ->. apply StrFacts.suffix_cons. by eapply IH.
      * destruct (n =? 0)%nat; [by apply Hk | done].
    + destruct (n =? 0)%nat; [by apply Hk | done].
Qed.

Lemma items_suffix its : forall s r, items its s = Some r -> Str.suffix r s.
Proof.
  induction its as [|[a|n a|] its IH]; intros s r H; cbn [items] in H.
  - injection H as ->. apply StrFacts.suffix_refl.
  - destruct s as [|x s]; [done |].
    destruct (accepts a x); [|done].
    apply StrFacts.suffix_cons. by apply IH.
  - by eapply rep_suffix.
  - destruct (at_eos s); [by apply IH | done].
Qed.

(** *** Searching and substituting *)

Lemma search_from_nobol p b b' s :
  bol p = false -> search_from p b s = search_from p b' s.
Proof.
  intros Hp. destruct s; cbn [search_from]; unfold at_pos; by rewrite Hp.
Qed.

(** A pattern without [^] that is found in a suffix is found in the
    string. *)
Lemma search_suffix p b b' t s :
  bol p = false -> Str.suffix t s ->
  is_Some (search_from p b t) -> is_Some (search_from p b' s).
Proof.
  intros Hp [pre ->] Ht. induction pre as [|x pre IH].
  - by rewrite (search_from_nobol p b' b).
  - rewrite StrFacts.app_cons. cbn [search_from].
    destruct (at_pos p b' (String x (pre +:+ t))); [by eexists |].
    rewrite (search_from_nobol p false b') by done.
    destruct IH as [[i j] ->]. by eexists.
Qed.

(** A pattern with [^] is not matched past the start of the string. *)
Lemma sub_from_bol p s : forall n,
  bol p = true -> sub_from p false n s = Str.drop n s.
Proof.
  induction s as [|x s IH]; intros n Hp; [by destruct n |].
  destruct n as [|n]; cbn [sub_from Str.drop]; [|by apply IH].
  unfold at_pos. rewrite Hp. cbn. rewrite IH by done.
  by rewrite StrFacts.drop_0.
Qed.

(** [re.sub] of a pattern with [^] removes the match at the start of the
    string, if there is one. *)
Lemma re_sub_bol p s :
  bol p = true -> re_sub p s = default s (items (body p) s).
Proof.
  intros Hp. unfold re_sub. destruct s as [|x s].
  - destruct (items (body p) "") as [r|] eqn:Hr; [|done].
    apply items_suffix in Hr. apply StrFacts.suffix_nil in Hr. by subst.
  - cbn [sub_from]. unfold at_pos. rewrite Hp. cbn [andb negb].
    destruct (items (body p) (String x s)) as [r|] eqn:Hr;
      cbn [fmap option_fmap option_map default].
    + apply items_suffix in Hr.
      pose proof (StrFacts.suffix_drop _ _ Hr) as Hd.
      destruct (String.length (String x s) - String.length r) as [|n] eqn:Hn.
      * rewrite StrFacts.drop_0 in Hd. rewrite sub_from_bol by done.
        by rewrite StrFacts.drop_0.
      * rewrite sub_from_bol by done. exact Hd.
    + rewrite sub_from_bol by done. by rewrite StrFacts.drop_0.
Qed.

Lemma re_sub_bol_suffix p s : bol p = true -> Str.suffix (re_sub p s) s.
Proof.
  intros Hp. rewrite re_sub_bol by done.
  destruct (items (body p) s) as [r|] eqn:Hr; cbn [default].
  - by eapply items_suffix.
  - apply StrFacts.suffix_refl.
Qed.

End ReFacts.

Module FenceFacts.
Import Re ReFacts.

Lemma truthy_fmap {A B} (f : A -> B) (o : option A) :
  truthy (f <$> o) = truthy o.
Proof. by destruct o. Qed.

Lemma truthy_true {A} (o : option A) : truthy o = true <-> is_Some o.
Proof.
  destruct o; cbn; split; intros H; done || by destruct H.
Qed.

Lemma truthy_false {A} (o : option A) : truthy o = false <-> o = None.
Proof. by destruct o. Qed.

Lemma start_unfold s :
  items (body RE_CODE_BLK_START) s =
  rep (Lit space) 0
    (rep (Lit backtick) 3
       (items (lits "mcgtable"
               ++ [AtLeast 0 (Lit space); One (Lit newline)]))) s.
Proof. reflexivity. Qed.

(** The opening pattern matches exactly the strings that start with
    spaces, three or more backticks, [mcgtable], spaces and a newline; what
    is left is the text after that newline. *)
Lemma start_Some s r :
  items (body RE_CODE_BLK_START) s = Some r <->
  exists i n j, 3 <= n /\
    s = Str.repeat space i +:+ Str.repeat backtick n +:+ "mcgtable"
        +:+ Str.repeat space j +:+ nl +:+ r.
Proof.
  rewrite start_unfold. split.
  - intros H.
    apply rep_lit_inv in H as (i & t1 & _ & -> & H).
    apply rep_lit_inv in H as (n & t2 & Hn & -> & H).
    apply items_lits_inv in H as (t3 & -> & H).
    cbn [items] in H.
    apply rep_lit_inv in H as (j & t4 & _ & -> & H).
    destruct t4 as [|x t4]; [done |].
    destruct (accepts (Lit newline) x) eqn:Hx; [|done].
    apply accepts_lit in Hx as ->. injection H as ->.
    by exists i, n, j.
  - intros (i & n & j & Hn & ->).
    apply rep_lit_greedy; [lia | |].
    { destruct n as [|n]; [lia | done]. }
    apply rep_lit_greedy; [lia | done |].
    rewrite items_lits. cbn [items].
    apply rep_lit_greedy; [lia | done |].
    reflexivity.
Qed.

(** Removing the opening fence does not create a closing fence. *)
Lemma has_end_opened b :
  has_end b = false -> has_end (re_sub RE_CODE_BLK_START b) = false.
Proof.
  unfold has_end. rewrite !truthy_false, !eq_None_not_Some.
  intros Hb Hs. apply Hb.
  eapply search_suffix; [done | | exact Hs].
  by apply re_sub_bol_suffix.
Qed.

End FenceFacts.

(** ** The monad and the primitives *)

Module MonadFacts.

Lemma bind_unfold {A B} (m : M A) (f : A -> M B) st :
  (m ≫= f) st =
  match m st with
  | (Return a, st') => f a st'
  | (Raise e, st') => (Raise e, st')
  end.
Proof. reflexivity. Qed.



Lemma add_logs_nil st : add_logs st [] = st.
Proof. destruct st. unfold add_logs. cbn. by rewrite app_nil_r. Qed.

Lemma count_ends_app bs1 bs2 :
  count_ends (bs1 ++ bs2) = count_ends bs1 + count_ends bs2.
Proof. induction bs1 as [|b bs1 IH]; cbn; [done | rewrite IH; lia]. Qed.

Lemma closers_before_S bs k b :
  bs !! k = Some b ->
  closers_before bs (S k)
  = closers_before bs k + (if has_end b then 1 else 0).
Proof.
  intros Hb. unfold closers_before.
  rewrite (take_S_r _ _ _ Hb), count_ends_app. cbn. lia.
Qed.

Lemma closers_before_mono bs j k :
  j <= k -> closers_before bs j <= closers_before bs k.
Proof.
  intros Hjk. unfold closers_before.
  replace k with (j + (k - j)) by lia.
  rewrite <- take_take_drop, count_ends_app. lia.
Qed.

End MonadFacts.

(** ** The loop over the blocks *)

Module LoopFacts.
Import MonadFacts FenceFacts.

Ltac mrun :=
  repeat first
    [ rewrite bind_unfold
    | progress cbn [mret M_ret call answer raise lift] ].

Ltac st_norm :=
  unfold set_result, set_blocks, set_parent, add_log, add_logs, add_child;
  cbn [blocks parent result log spawned].

Lemma feed_ok env n :
  (forall w, write_raises env n w = None) ->
  forall count i st, i + count <= length (blocks st) ->
  feed env n count i st
  = (Return (), add_logs st (feed_log n (take count (drop i (blocks st))))).
Proof.
  intros Hw. induction count as [|count IH]; intros i st Hlen.
  - cbn. by rewrite add_logs_nil.
  - destruct (lookup_lt_is_Some_2 (blocks st) i) as [b Hb]; [lia |].
    cbn [feed]. rewrite bind_unfold. unfold get_item at 1. rewrite Hb.
    unfold stdin_write. rewrite !Hw. mrun.
    rewrite IH by (cbn; lia). cbn [blocks add_log].
    rewrite (drop_S _ _ _ Hb). cbn [take feed_log].
    unfold add_logs. cbn. by rewrite <- !app_assoc.
Qed.

Lemma pop_blocks_ok : forall count st,
  count <= length (blocks st) ->
  pop_blocks count st = (Return (), set_blocks st (drop count (blocks st))).
Proof.
  induction count as [|count IH]; intros st Hlen.
  - by destruct st.
  - destruct st as [[|b bs] par q lg sp]; cbn in Hlen; [lia |].
    cbn [pop_blocks]. mrun. cbn [pop0 blocks].
    rewrite IH by (cbn; lia). reflexivity.
Qed.

Lemma try_close_benign env n st :
  benign (close_raises env n) = true ->
  try_close (stdin_close env n) st = (Return (), add_log st (StdinClose n)).
Proof.
  unfold try_close, stdin_close. mrun.
  destruct (close_raises env n) as [[|errno| |name]|]; cbn; try done.
  by intros ->.
Qed.

Lemma try_close_fatal env n e st :
  close_raises env n = Some e -> benign (Some e) = false ->
  try_close (stdin_close env n) st = (Raise e, add_log st (StdinClose n)).
Proof.
  unfold try_close, stdin_close. mrun. intros ->.
  destruct e as [|errno| |name]; cbn; try done. by intros ->.
Qed.

(** The state in which child [n] has been launched and fed blocks 0 to
    [k]. *)
Lemma render_fed env k st :
  starts env (spawned st) -> k < length (blocks st) ->
  render env k st
  = (try_close (stdin_close env (spawned st));;
     join env (spawned st);;
     got ← queue_get;
     match got with
     | Some e =>
         e ← parse_all_cells env e;
         parent_append (getroot e);;
         pop_blocks (k + 1);;
         mret (Some true)
     | None => mret None
     end)
    (mkState (blocks st) (parent st) (result st)
       (log st ++ [Popen (spawned st) cmd false; ThreadStart (spawned st)]
          ++ feed_log (spawned st) (take (S k) (blocks st)))
       (S (spawned st))).
Proof.
  intros [Hp Hw] Hk. unfold render at 1. rewrite bind_unfold.
  unfold popen at 1. rewrite Hp. mrun.
  rewrite (feed_ok env _ Hw) by (cbn; lia). mrun.
  cbn [blocks add_child add_log]. rewrite drop_0.
  replace (k + 1) with (S k) by lia.
  unfold add_logs. cbn. by rewrite <- !app_assoc.
Qed.

Lemma render_unlaunched env k st e :
  popen_raises env (spawned st) = Some e ->
  render env k st
  = (Raise e, add_child (add_log st (Popen (spawned st) cmd false))).
Proof.
  intros Hp. unfold render. rewrite bind_unfold. unfold popen.
  by rewrite Hp.
Qed.

Lemma render_fatal env k st e :
  starts env (spawned st) -> k < length (blocks st) ->
  close_raises env (spawned st) = Some e -> benign (Some e) = false ->
  render env k st
  = (Raise e,
     mkState (blocks st) (parent st) (result st)
       (log st ++ [Popen (spawned st) cmd false; ThreadStart (spawned st)]
          ++ feed_log (spawned st) (take (S k) (blocks st))
          ++ [StdinClose (spawned st)])
       (S (spawned st))).
Proof.
  intros Hs Hk He Hb. rewrite render_fed by done. rewrite bind_unfold.
  rewrite (try_close_fatal _ _ e) by done.
  unfold add_log. cbn. by rewrite <- !app_assoc.
Qed.

Lemma render_joined env k st :
  starts env (spawned st) -> k < length (blocks st) ->
  benign (close_raises env (spawned st)) = true -> result st = [] ->
  render env k st
  = match parse_stdout env (spawned st) with
    | Some e =>
        e ← parse_all_cells env e;
        parent_append (getroot e);;
        pop_blocks (k + 1);;
        mret (Some true)
    | None => mret None
    end
      (mkState (blocks st) (parent st) []
         (log st ++ attempt_log (spawned st) (take (S k) (blocks st)))
         (S (spawned st))).
Proof.
  intros Hs Hk Hb Hq. rewrite render_fed by done. rewrite bind_unfold.
  rewrite try_close_benign by done. mrun.
  unfold join at 1. cbn [spawned result log blocks parent add_log set_result].
  rewrite Hq. unfold attempt_log.
  destruct (parse_stdout env (spawned st)) as [e|];
    rewrite bind_unfold; unfold queue_get at 1;
    cbn [spawned result log blocks parent add_log set_result option_list
         option_rect app];
    st_norm; rewrite <- !app_assoc; reflexivity.
Qed.

Lemma for_blocks_miss env todo i st b :
  blocks st !! i = Some b -> has_end b = false ->
  for_blocks env (S todo) i st = for_blocks env todo (S i) st.
Proof.
  intros Hb He. cbn [for_blocks]. rewrite Hb.
  unfold has_end in He. by rewrite He.
Qed.

Lemma for_blocks_hit env todo i st b :
  blocks st !! i = Some b -> has_end b = true ->
  for_blocks env (S todo) i st
  = (r ← render env i;
     match r with
     | Some b => mret (Some b)
     | None => for_blocks env todo (S i)
     end)
    (set_blocks st (<[i := Re.re_sub RE_CODE_BLK_END b]> (blocks st))).
Proof.
  intros Hb He. cbn [for_blocks]. rewrite Hb.
  unfold has_end in He. rewrite He.
  rewrite bind_unfold. unfold set_item at 1. by rewrite Hb.
Qed.

(** Without a closing fence among the blocks from [i] on, the loop ends
    without a call. *)
Lemma for_blocks_none env st : forall todo i,
  (forall j b, i <= j -> blocks st !! j = Some b -> has_end b = false) ->
  for_blocks env todo i st = (Return None, st).
Proof.
  induction todo as [|todo IH]; intros i Hno; [done |].
  destruct (blocks st !! i) as [b|] eqn:Hb.
  - rewrite (for_blocks_miss _ _ _ _ b) by eauto.
    apply IH. intros j b' Hj. apply Hno. lia.
  - cbn [for_blocks]. by rewrite Hb.
Qed.

Lemma length_blocks_at bs k : length (blocks_at bs k) = length bs.
Proof.
  unfold blocks_at.
  rewrite length_app, length_fmap, length_take, length_drop. lia.
Qed.

Lemma lookup_blocks_at bs k j :
  k <= j -> blocks_at bs k !! j = bs !! j.
Proof.
  intros Hj. unfold blocks_at.
  destruct (decide (k <= length bs)).
  - rewrite lookup_app_r; rewrite length_fmap, length_take; [|lia].
    rewrite lookup_drop. f_equal. lia.
  - rewrite drop_ge, app_nil_r by lia.
    rewrite !lookup_ge_None_2; [done | lia |].
    rewrite length_fmap, length_take. lia.
Qed.

Lemma blocks_at_S bs k b :
  bs !! k = Some b ->
  blocks_at bs (S k) = <[k := strip_end b]> (blocks_at bs k).
Proof.
  intros Hb. unfold blocks_at.
  pose proof (lookup_lt_Some _ _ _ Hb) as Hk.
  rewrite (take_S_r _ _ _ Hb), (drop_S _ _ _ Hb), fmap_app.
  cbn [fmap list_fmap].
  rewrite <- app_assoc. cbn [app].
  replace k with (length (strip_end <$> take k bs) + 0) at 3
    by (rewrite length_fmap, length_take; lia).
  by rewrite insert_app_r.
Qed.

Lemma take_blocks_at bs k :
  k <= length bs -> take k (blocks_at bs k) = strip_end <$> take k bs.
Proof.
  intros Hk. unfold blocks_at. apply take_app_length'.
  rewrite length_fmap, length_take. lia.
Qed.

(** With quiet children only, the loop arrives at block [k] in the state
    [blocks_at], [quiet_log], [closers_before]. *)
Lemma for_blocks_reach env bs par k :
  (forall m, m < closers_before bs k -> quiet env m) ->
  k <= length bs ->
  for_blocks env (length bs) 0 (mkState bs par [] [] 0)
  = for_blocks env (length bs - k) k
      (mkState (blocks_at bs k) par [] (quiet_log bs k)
         (closers_before bs k)).
Proof.
  induction k as [|k IH]; intros Hq Hk.
  - unfold blocks_at. cbn. by rewrite Nat.sub_0_r, drop_0.
  - destruct (lookup_lt_is_Some_2 bs k) as [b Hb]; [lia |].
    rewrite IH; [| | lia].
    2:{ intros m Hm. apply Hq.
        pose proof (closers_before_mono bs k (S k)). lia. }
    replace (length bs - k) with (S (length bs - S k)) by lia.
    rewrite (blocks_at_S _ _ _ Hb), (closers_before_S _ _ _ Hb).
    cbn [quiet_log]. rewrite Hb. unfold strip_end.
    destruct (has_end b) eqn:He.
    + rewrite (for_blocks_hit _ _ _ _ b);
        [| cbn; by rewrite lookup_blocks_at | done].
      st_norm. rewrite bind_unfold.
      assert (quiet env (closers_before bs k)) as (Hs & Hc & Hp).
      { apply Hq. rewrite (closers_before_S _ _ _ Hb), He. lia. }
      rewrite render_joined; cbn [blocks parent result log spawned];
        [| done | | done | done].
      2:{ rewrite length_insert, length_blocks_at; lia. }
      rewrite Hp. cbn [mret M_ret].
      replace (<[k:=Re.re_sub RE_CODE_BLK_END b]> (blocks_at bs k))
        with (blocks_at bs (S k))
        by (rewrite (blocks_at_S _ _ _ Hb); unfold strip_end; by rewrite He).
      rewrite take_blocks_at by lia.
      by replace (closers_before bs k + 1) with (S (closers_before bs k))
        by lia.
    + rewrite list_insert_id by (by rewrite lookup_blocks_at).
      rewrite (for_blocks_miss _ _ _ _ b);
        [| cbn; by rewrite lookup_blocks_at | done].
      by rewrite app_nil_r, Nat.add_0_r.
Qed.

End LoopFacts.

(** ** [run] up to the launch of a child *)

Module RunFacts.
Import MonadFacts FenceFacts LoopFacts.
Local Open Scope list_scope.

Lemma run_unfold env par b0 rest :
  run env par (b0 :: rest)
  = (r ← for_blocks env (S (length rest)) 0;
     match r with
     | Some b => mret b
     | None => set_item 0 b0;; mret false
     end)
    (mkState (opened (b0 :: rest)) par [] [] 0).
Proof. reflexivity. Qed.

(** When the loop reaches block [k], [run] is the rest of that iteration
    in the state the quiet children have left. *)
Lemma run_reaches env par b0 rest k n :
  reaches env (opened (b0 :: rest)) k n ->
  run env par (b0 :: rest)
  = (r ← (r ← render env k;
          match r with
          | Some b => mret (Some b)
          | None => for_blocks env (length rest - k) (S k)
          end);
     match r with
     | Some b => mret b
     | None => set_item 0 b0;; mret false
     end)
    (mkState (blocks_at (opened (b0 :: rest)) (S k)) par []
       (quiet_log (opened (b0 :: rest)) k) n).
Proof.
  intros ((b & Hb & He) & -> & Hq). rewrite run_unfold.
  set (bs := opened (b0 :: rest)) in *.
  pose proof (lookup_lt_Some _ _ _ Hb) as Hk.
  assert (length bs = S (length rest)) as Hlen by done.
  rewrite bind_unfold, <- Hlen, (for_blocks_reach env bs par k)
    by (done || lia).
  replace (length bs - k) with (S (length rest - k)) by lia.
  rewrite (for_blocks_hit _ _ _ _ b);
    [| cbn; by rewrite lookup_blocks_at | done].
  st_norm. rewrite (blocks_at_S _ _ _ Hb). unfold strip_end. rewrite He.
  by rewrite <- bind_unfold.
Qed.

Lemma strip_end_no_ends l : count_ends l = 0 -> strip_end <$> l = l.
Proof.
  induction l as [|b l IH]; [done |].
  rewrite fmap_cons. cbn [count_ends]. unfold strip_end at 1.
  destruct (has_end b); [done |]. intros H. by rewrite IH.
Qed.

Lemma blocks_at_first bs k :
  closers_before bs k = 0 -> blocks_at bs k = bs.
Proof.
  intros H. unfold blocks_at. rewrite strip_end_no_ends by done.
  apply take_drop.
Qed.

Lemma quiet_log_first bs k :
  closers_before bs k = 0 -> quiet_log bs k = [].
Proof.
  induction k as [|k IH]; [done |]. intros H. cbn [quiet_log].
  pose proof (closers_before_mono bs k (S k)).
  rewrite IH by lia. destruct (bs !! k) as [b|] eqn:Hb; [|done].
  rewrite (closers_before_S _ _ _ Hb) in H.
  destruct (has_end b); [lia | done].
Qed.

Lemma count_ends_none l :
  (forall b, b ∈ l -> has_end b = false) -> count_ends l = 0.
Proof.
  induction l as [|b l IH]; intros H; [done |].
  cbn [count_ends]. rewrite (H b) by (by left).
  rewrite IH; [done |]. intros b' Hb'. apply H. by right.
Qed.

(** The first block with a closing fence is reached in every world, with
    no child behind it, and the blocks before it are as they were. *)
Lemma reaches_first env bs k b :
  bs !! k = Some b -> has_end b = true ->
  (forall j b', j < k -> bs !! j = Some b' -> has_end b' = false) ->
  reaches env bs k 0
  /\ strip_end <$> take (S k) bs
     = take k bs ++ [Re.re_sub RE_CODE_BLK_END b].
Proof.
  intros Hb He Hfirst.
  assert (closers_before bs k = 0) as H0.
  { apply count_ends_none. intros b' Hb'.
    apply list_elem_of_lookup in Hb' as (j & Hj).
    apply lookup_take_Some in Hj as [Hj Hlt]. by eapply Hfirst. }
  split.
  - split; [by exists b | split; [done | intros m Hm; lia]].
  - rewrite (take_S_r _ _ _ Hb), fmap_app, strip_end_no_ends by done.
    cbn [fmap list_fmap]. unfold strip_end. by rewrite He.
Qed.

End RunFacts.

(** ** Element trees: index paths, [findall] and replacement *)

Module ETFacts.

Lemma elem_of_findall_cons t path el p :
  p ∈ findall_from (t :: path) el <->
  exists i c p', p = i :: p' /\ children el !! i = Some c /\ tag c = t
                 /\ p' ∈ findall_from path c.
Proof.
  cbn [findall_from]. rewrite list_elem_of_join. split.
  - intros (l & Hp & Hl). apply elem_of_lookup_imap in Hl as (i & c & -> & Hc).
    destruct (String.eqb_spec (tag c) t) as [Ht|];
      [|by apply elem_of_nil in Hp].
    apply list_elem_of_fmap in Hp as (p' & -> & Hp'). by exists i, c, p'.
  - intros (i & c & p' & -> & Hc & Ht & Hp').
    eexists. split; [|by eapply elem_of_lookup_imap_2].
    cbn. rewrite (proj2 (String.eqb_eq _ _) Ht).
    by apply list_elem_of_fmap_2.
Qed.


Lemma findall_get path : forall el p,
  p ∈ findall_from path el -> is_Some (get_at p el).
Proof.
  induction path as [|t path IH]; intros el p Hp.
  - apply list_elem_of_singleton in Hp. subst. by eexists.
  - apply elem_of_findall_cons in Hp as (i & c & p' & -> & Hc & _ & Hp').
    cbn. rewrite Hc. by eapply IH.
Qed.







End ETFacts.

(** ** What [run] can add to the log *)

Module TraceFacts.
Import MonadFacts.
Local Open Scope list_scope.

Lemma extends_refl lo st : extends lo st st.
Proof. split; [done |]. exists []. by rewrite app_nil_r. Qed.




Lemma ok_event_mono lo lo' ev : lo <= lo' -> ok_event lo' ev -> ok_event lo ev.
Proof. destruct ev; cbn; intros; try done; try lia. split; [lia | tauto]. Qed.

Lemma extends_mono lo lo' st st' :
  lo <= lo' -> extends lo' st st' -> extends lo st st'.
Proof.
  intros Hlo [H (l & E & F)]. split; [done |]. exists l. split; [done |].
  eapply Forall_impl; [exact F |]. intros ev. by apply ok_event_mono.
Qed.


Lemma tracked_weaken lo {A} (m : M A) (R R' : A -> Prop) :
  tracked lo m R -> (forall a, R a -> R' a) -> tracked lo m R'.
Proof. intros Hm HR st Hst. destruct (Hm st Hst). split; eauto. Qed.



Lemma tracked_raise lo {A} e (R : A -> Prop) : tracked lo (raise e) R.
Proof. intros st _. split; [apply extends_refl | done]. Qed.




























End TraceFacts.

(** ** [run] after the launch of a child *)

Module ChildFacts.
Import MonadFacts FenceFacts LoopFacts RunFacts TraceFacts.
Local Open Scope list_scope.




End ChildFacts.

(** ** Two worlds that [run] cannot tell apart *)

Module ExtFacts.
Import MonadFacts.

Lemma bind_ext {A B} (m1 m2 : M A) (f1 f2 : A -> M B) st :
  m1 st = m2 st -> (forall a st', f1 a st' = f2 a st') ->
  (m1 ≫= f1) st = (m2 ≫= f2) st.
Proof.
  intros Hm Hf. rewrite !bind_unfold, Hm.
  by destruct (m2 st) as [[a|e] st'].
Qed.

Section Ext.

Variables env env' : Env.
Hypothesis Hpopen : forall n, popen_raises env' n = popen_raises env n.
Hypothesis Hwrite : forall n w, write_raises env' n w = write_raises env n w.
Hypothesis Hparse : forall n, parse_stdout env' n = parse_stdout env n.
Hypothesis Hhost : forall c t, parseChunk env' c t = parseChunk env c t.
Hypothesis Hclose : forall n st,
  try_close (stdin_close env' n) st = try_close (stdin_close env n) st.

Lemma feed_ext n : forall count i st,
  feed env' n count i st = feed env n count i st.
Proof.
  induction count as [|count IH]; intros i st; [done |].
  cbn [feed]. apply bind_ext; [done |]. intros b st1.
  unfold stdin_write. rewrite !Hwrite.
  apply bind_ext; [done |]. intros _ st2.
  apply bind_ext; [done |]. intros _ st3. apply IH.
Qed.

Lemma for_cells_ext ps : forall e st,
  for_cells env' ps e st = for_cells env ps e st.
Proof.
  induction ps as [|p ps IH]; intros e st; [done |].
  cbn [for_cells]. apply bind_ext; [|by intros].
  unfold parse_cell. destruct (get_at p (getroot e)); [|done].
  by rewrite Hhost.
Qed.

Lemma parse_all_cells_ext e st :
  parse_all_cells env' e st = parse_all_cells env e st.
Proof.
  unfold parse_all_cells, parse_cells.
  repeat (apply bind_ext; [apply for_cells_ext | intros ? ?]).
  apply for_cells_ext.
Qed.

Lemma render_ext k st : render env' k st = render env k st.
Proof.
  unfold render. apply bind_ext; [unfold popen; by rewrite Hpopen |].
  intros n st1. apply bind_ext; [done |]. intros _ st2.
  apply bind_ext; [apply feed_ext |]. intros _ st3.
  apply bind_ext; [apply Hclose |]. intros _ st4.
  apply bind_ext; [unfold join; by rewrite Hparse |]. intros _ st5.
  apply bind_ext; [done |]. intros [e|] st6; [|done].
  apply bind_ext; [apply parse_all_cells_ext | done].
Qed.

Lemma for_blocks_ext : forall todo i st,
  for_blocks env' todo i st = for_blocks env todo i st.
Proof.
  induction todo as [|todo IH]; intros i st; [done |].
  cbn [for_blocks]. destruct (blocks st !! i) as [b|]; [|done].
  destruct (truthy (Re.re_search RE_CODE_BLK_END b)); [|apply IH].
  apply bind_ext; [done |]. intros _ st1.
  apply bind_ext; [apply render_ext |]. intros [r|] st2; [done | apply IH].
Qed.

Lemma run_ext par bs : run env' par bs = run env par bs.
Proof.
  unfold run, run_body.
  repeat (apply bind_ext; [done | intros ? ?]).
  apply bind_ext; [apply for_blocks_ext | done].
Qed.

End Ext.

(** A close that raises what the handler swallows is a close that
    returns. *)
Lemma try_close_swallowed env n m st :
  benign (close_raises env n) = true ->
  try_close (stdin_close (with_close env n None) m) st
  = try_close (stdin_close env m) st.
Proof.
  intros Hb. unfold try_close, stdin_close. rewrite !bind_unfold.
  cbn [call close_raises with_close].
  destruct (decide (m = n)) as [->|]; [|done].
  destruct (close_raises env n) as [[|errno| |name]|]; cbn in *; try done.
  by rewrite Hb.
Qed.

End ExtFacts.

(** ** The loops over the cells *)

Module CellFacts.
Import MonadFacts LoopFacts ETFacts TraceFacts.
Local Open Scope list_scope.

Section Cells.

Variable env : Env.
Variable root : Element.









End Cells.


Lemma parse_all_cells_paths env e st :
  parse_all_cells env e st = for_paths env cell_paths e st.
Proof.
  unfold parse_all_cells, cell_paths. cbn [for_paths].
  repeat (rewrite !bind_unfold; destruct (parse_cells env _ _ _) as [[?|?] ?];
          [|done]).
  done.
Qed.


End CellFacts.

(** ** The rendered table *)

Module TableFacts.
Import MonadFacts LoopFacts ETFacts TraceFacts CellFacts.
Local Open Scope list_scope.









End TableFacts.

(** ** [run] after the reader has yielded a document *)

Module DocFacts.
Import MonadFacts LoopFacts RunFacts TraceFacts ChildFacts CellFacts
  TableFacts.
Local Open Scope list_scope.



End DocFacts.

(** ** Two side conditions of the model *)

Module ModelFacts.
Import Re StrFacts ReFacts FenceFacts MonadFacts LoopFacts.
Local Open Scope list_scope.

(** Neither pattern has an empty match, so [sub_from] never meets one. *)
Lemma start_shorter s r :
  items (body RE_CODE_BLK_START) s = Some r ->
  String.length r < String.length s.
Proof.
  intros H. apply start_Some in H as (i & n & j & Hn & ->).
  rewrite !length_app. cbn. lia.
Qed.

Lemma end_shorter s r :
  items (body RE_CODE_BLK_END) s = Some r ->
  String.length r < String.length s.
Proof.
  cbn [body RE_CODE_BLK_END items]. destruct s as [|x s]; [done |].
  destruct (accepts (Lit newline) x); [|done]. intros H.
  change (items [AtLeast 0 (Lit space); AtLeast 3 (Lit backtick);
               AtLeast 0 Space; Eos] s = Some r) in H.
  apply items_suffix, suffix_length in H. cbn. lia.
Qed.

(** The calls of an iteration leave the list of blocks alone as long as
    the iteration does not return. *)
Lemma keeps_bind {A B} (m : M A) (f : A -> M B) :
  keeps m -> (forall a, keeps (f a)) -> keeps (m ≫= f).
Proof.
  intros Hm Hf st. rewrite bind_unfold. specialize (Hm st).
  destruct (m st) as [[a|e] st1]; cbn in *; [|done].
  by rewrite Hf.
Qed.

Lemma keeps_feed env n : forall count i, keeps (feed env n count i).
Proof.
  induction count as [|count IH]; intros i; [done |].
  cbn [feed]. apply keeps_bind.
  { intros st. unfold get_item. by destruct (blocks st !! i). }
  intros b. unfold stdin_write.
  repeat (apply keeps_bind; [|intros _]); try done;
    try (intros st; by destruct (write_raises env n _)).
Qed.

Lemma keeps_try_close env n : keeps (try_close (stdin_close env n)).
Proof.
  intros st. unfold try_close, stdin_close. rewrite bind_unfold. cbn [call].
  destruct (close_raises env n) as [[|errno| |name]|]; cbn; try done.
  by destruct (errno =? EINVAL)%Z.
Qed.

Lemma render_None env i st st' :
  render env i st = (Return None, st') -> blocks st' = blocks st.
Proof.
  unfold render. rewrite bind_unfold. unfold popen at 1.
  destruct (popen_raises env (spawned st)); [done |].
  rewrite bind_unfold. cbn [call].
  rewrite bind_unfold.
  match goal with |- context [feed env ?n ?c ?j ?s] =>
    pose proof (keeps_feed env n c j s) as Hf;
    destruct (feed env n c j s) as [[[]|e] s1]; [|done]
  end.
  rewrite bind_unfold.
  pose proof (keeps_try_close env (spawned st) s1) as Hc.
  destruct (try_close (stdin_close env (spawned st)) s1) as [[[]|e] s2];
    [|done].
  rewrite bind_unfold. unfold join at 1. rewrite bind_unfold.
  unfold queue_get at 1.
  cbn [result set_result add_log blocks parent log spawned].
  cbn [snd] in *.
  destruct (result s2 ++ option_list (parse_stdout env (spawned st)))
    as [|e q].
  - intros [= <-]. cbn. by rewrite Hc, Hf.
  - rewrite bind_unfold.
    destruct (parse_all_cells env e _) as [[e'|x] s3]; [|done].
    rewrite bind_unfold. unfold parent_append at 1.
    rewrite bind_unfold.
    destruct (pop_blocks (i + 1) _) as [[[]|x] s4]; done.
Qed.

(** The bound on the iterations does not end the loop early: any bound from
    the length of the list on gives the same loop. *)
Lemma for_blocks_bound env extra : forall todo i st,
  length (blocks st) <= i + todo ->
  for_blocks env (todo + extra) i st = for_blocks env todo i st.
Proof.
  induction todo as [|todo IH]; intros i st Hlen.
  - cbn [Nat.add for_blocks]. destruct extra as [|extra]; [done |].
    cbn [for_blocks]. by rewrite lookup_ge_None_2 by lia.
  - cbn [Nat.add for_blocks]. destruct (blocks st !! i) as [b|] eqn:Hb;
      [|done].
    destruct (truthy (re_search RE_CODE_BLK_END b)); [|apply IH; lia].
    rewrite !bind_unfold. unfold set_item at 1 2. rewrite Hb.
    rewrite !(bind_unfold (render env i)).
    destruct (render env i _) as [[[r|]|e] st2] eqn:Hr; try done.
    apply render_None in Hr. apply IH. rewrite Hr. cbn.
    rewrite length_insert. lia.
Qed.

End ModelFacts.

(** ** What an iteration, the loop and [run] do in every world *)

Module SpecFacts.
Import MonadFacts FenceFacts LoopFacts RunFacts.
Local Open Scope list_scope.

Lemma launches_app l1 l2 : launches (l1 ++ l2) = launches l1 + launches l2.
Proof.
  induction l1 as [|ev l1 IH]; [done |]. destruct ev; cbn; by rewrite IH.
Qed.

Lemma calm_refl st : calm st st.
Proof. by repeat split. Qed.

Lemma calm_trans st1 st2 st3 : calm st1 st2 -> calm st2 st3 -> calm st1 st3.
Proof.
  intros (?&?&?&?&?) (?&?&?&?&?). repeat split; congruence.
Qed.

Lemma calm_log st ev :
  launches [ev] = 0 -> calm st (add_log st ev).
Proof.
  intros Hev. repeat split. cbn. rewrite launches_app, Hev. lia.
Qed.

Lemma write_spec env n w data st :
  forall r st', stdin_write env n w data st = (r, st') ->
  calm st st' /\ forall e, r = Raise e -> write_raises env n w = Some e.
Proof.
  unfold stdin_write. rewrite bind_unfold. cbn [call].
  destruct (write_raises env n w) as [e|]; intros r st' [= <- <-];
    (split; [by apply calm_log |]); [by intros ? [= <-] | done].
Qed.

Lemma feed_spec env n : forall count i st r st',
  i + count <= length (blocks st) ->
  feed env n count i st = (r, st') ->
  calm st st' /\ forall e, r = Raise e -> exists w, write_raises env n w = Some e.
Proof.
  induction count as [|count IH]; intros i st r st' Hlen.
  - intros [= <- <-]. split; [apply calm_refl | done].
  - destruct (lookup_lt_is_Some_2 (blocks st) i) as [b Hb]; [lia |].
    cbn [feed]. rewrite bind_unfold. unfold get_item at 1. rewrite Hb.
    rewrite bind_unfold.
    destruct (stdin_write env n (2 * i) b st) as [[[]|e] s1] eqn:H1;
      apply write_spec in H1 as [C1 E1].
    2:{ intros [= <- <-]. split; [done |]. intros ? [= <-]. eauto. }
    rewrite bind_unfold.
    destruct (stdin_write env n (2 * i + 1) (nl +:+ nl) s1)
      as [[[]|e] s2] eqn:H2; apply write_spec in H2 as [C2 E2].
    2:{ intros [= <- <-]. split; [by eapply calm_trans |].
        intros ? [= <-]. eauto. }
    intros H. apply IH in H as [C3 E3].
    + split; [|done]. eapply calm_trans; [|exact C3].
      by eapply calm_trans.
    + destruct C1 as (B1 & _), C2 as (B2 & _). rewrite B2, B1. lia.
Qed.

Lemma parse_cell_spec env e p st :
  forall r st', parse_cell env e p st = (r, st') ->
  calm st st' /\ forall x, r = Raise x -> exists c t, parseChunk env c t = Raise x.
Proof.
  unfold parse_cell. destruct (get_at p (getroot e)) as [c|].
  2:{ intros r st' [= <- <-]. split; [apply calm_refl | done]. }
  rewrite !bind_unfold. cbn [call lift].
  destruct (parseChunk env (set_text c (Some "")) (text c)) as [c'|x] eqn:Hh;
    intros r st' [= <- <-]; (split; [by apply calm_log |]); [done |].
  intros ? [= <-]. eauto.
Qed.

Lemma for_cells_spec env : forall ps e st r st',
  for_cells env ps e st = (r, st') ->
  calm st st' /\ forall x, r = Raise x -> exists c t, parseChunk env c t = Raise x.
Proof.
  induction ps as [|p ps IH]; intros e st r st'.
  - intros [= <- <-]. split; [apply calm_refl | done].
  - cbn [for_cells]. rewrite bind_unfold.
    destruct (parse_cell env e p st) as [[e1|x] s1] eqn:H1;
      apply parse_cell_spec in H1 as [C1 E1].
    + intros H. apply IH in H as [C2 E2]. split; [by eapply calm_trans | done].
    + intros [= <- <-]. split; [done |]. intros ? [= <-]. eauto.
Qed.

Lemma parse_all_cells_spec env e st r st' :
  parse_all_cells env e st = (r, st') ->
  calm st st' /\ forall x, r = Raise x -> exists c t, parseChunk env c t = Raise x.
Proof.
  rewrite CellFacts.parse_all_cells_paths. revert e st r st'.
  generalize cell_paths as paths.
  induction paths as [|path paths IH]; intros e st r st'.
  - intros [= <- <-]. split; [apply calm_refl | done].
  - cbn [for_paths]. rewrite bind_unfold. unfold parse_cells.
    destruct (for_cells env (findall e path) e st) as [[e1|x] s1] eqn:H1;
      apply for_cells_spec in H1 as [C1 E1].
    + intros H. apply IH in H as [C2 E2]. split; [by eapply calm_trans | done].
    + intros [= <- <-]. split; [done |]. intros ? [= <-]. eauto.
Qed.

Lemma try_close_spec env n st :
  forall r st', try_close (stdin_close env n) st = (r, st') ->
  calm st st'
  /\ (r = Return ()
      \/ exists e, r = Raise e /\ close_raises env n = Some e
                   /\ benign (Some e) = false).
Proof.
  unfold try_close, stdin_close. rewrite bind_unfold. cbn [call].
  destruct (close_raises env n) as [[|errno| |name]|] eqn:Hc; cbn;
    try (intros r st' [= <- <-]; split; [by apply calm_log |]; eauto 6).
  destruct (errno =? EINVAL)%Z eqn:He;
    intros r st' [= <- <-]; (split; [by apply calm_log |]); eauto 6.
Qed.

(** One iteration that launches a child, in any world. *)
Lemma render_spec env i st r st' :
  i < length (blocks st) -> result st = [] ->
  render env i st = (r, st') ->
  result st' = [] /\ spawned st' = S (spawned st)
  /\ launches (log st') = S (launches (log st))
  /\ match r with
     | Return (Some b) =>
         b = true /\ blocks st' = drop (S i) (blocks st)
         /\ exists e root,
              parse_stdout env (spawned st) = Some e
              /\ parent st' = append (parent st) root
     | Return None =>
         blocks st' = blocks st /\ parent st' = parent st
         /\ parse_stdout env (spawned st) = None
     | Raise e =>
         blocks st' = blocks st /\ parent st' = parent st /\ from_env env e
     end.
Proof.
  intros Hi Hq. unfold render. rewrite bind_unfold. unfold popen at 1.
  set (s0 := add_child (add_log st (Popen (spawned st) cmd false))).
  assert (blocks s0 = blocks st /\ parent s0 = parent st
          /\ result s0 = [] /\ spawned s0 = S (spawned st)
          /\ launches (log s0) = S (launches (log st))) as (B0&P0&Q0&S0&L0).
  { subst s0. cbn. rewrite launches_app. cbn. split_and!; try done; lia. }
  destruct (popen_raises env (spawned st)) as [e|] eqn:Hp.
  { intros [= <- <-]. split_and!; try done. left. eauto. }
  rewrite bind_unfold. cbn [call].
  pose proof (calm_log s0 (ThreadStart (spawned st)) eq_refl) as C1.
  set (s1 := add_log s0 (ThreadStart (spawned st))) in *.
  rewrite bind_unfold.
  destruct (feed env (spawned st) (i + 1) 0 s1) as [[[]|e] s2] eqn:Hf;
    apply feed_spec in Hf as [C2 E2];
    try (destruct C1 as (-> & _); rewrite B0; lia).
  2:{ intros [= <- <-].
      destruct (calm_trans _ _ _ C1 C2) as (-> & -> & -> & -> & ->).
      split_and!; try done. destruct (E2 _ eq_refl) as [w Hw].
      right; left. eauto. }
  rewrite bind_unfold.
  destruct (try_close (stdin_close env (spawned st)) s2) as [rc s3] eqn:Hc.
  apply try_close_spec in Hc as [C3 Hrc].
  pose proof (calm_trans _ _ _ (calm_trans _ _ _ C1 C2) C3)
    as (B3 & P3 & Q3 & S3 & L3).
  destruct Hrc as [-> | (e & -> & Hce & Hbe)].
  2:{ intros [= <- <-]. rewrite B3, P3, Q3, S3, L3.
      split_and!; try done. right; right; left. eauto. }
  rewrite bind_unfold. unfold join at 1. rewrite bind_unfold.
  unfold queue_get at 1.
  cbn [result set_result add_log blocks parent log spawned].
  rewrite Q3, Q0. cbn [app].
  destruct (parse_stdout env (spawned st)) as [e|] eqn:Hparse;
    cbn [option_list option_rect].
  2:{ intros [= <- <-]. cbn. rewrite launches_app. cbn.
      rewrite B3, P3, S3, L3. split_and!; try done; lia. }
  rewrite bind_unfold.
  match goal with |- context [parse_all_cells env e ?s] =>
    set (s4 := s) in *
  end.
  assert (blocks s4 = blocks st /\ parent s4 = parent st
          /\ result s4 = [] /\ spawned s4 = S (spawned st)
          /\ launches (log s4) = S (launches (log st))) as (B4&P4&Q4&S4&L4).
  { subst s4. cbn. rewrite launches_app. cbn.
    rewrite B3, P3, S3, L3. split_and!; try done; lia. }
  destruct (parse_all_cells env e s4) as [[e'|x] s5] eqn:Hcells;
    apply parse_all_cells_spec in Hcells as [(B5&P5&Q5&S5&L5) E5].
  2:{ intros [= <- <-]. rewrite B5, P5, Q5, S5, L5.
      split_and!; try done. right; right; right. eauto. }
  rewrite bind_unfold. unfold parent_append at 1. rewrite bind_unfold.
  rewrite pop_blocks_ok by (cbn; rewrite B5, B4; lia).
  intros [= <- <-]. cbn. rewrite B5, P5, Q5, S5, L5, B4, P4.
  replace (i + 1) with (S i) by lia.
  split_and!; try done. eauto.
Qed.

Lemma worn_refl i bs : worn i bs bs.
Proof. split; [done |]. intros j b Hb. by left. Qed.

Lemma worn_mono i i' bs bs' : i <= i' -> worn i' bs bs' -> worn i bs bs'.
Proof.
  intros Hi [Hlen H]. split; [done |]. intros j b Hb.
  destruct (H j b Hb) as [? | (? & ? & ?)]; [by left | right].
  split_and!; [lia | done | done].
Qed.

Lemma worn_insert i bs b :
  bs !! i = Some b -> has_end b = true ->
  worn i bs (<[i := Re.re_sub RE_CODE_BLK_END b]> bs).
Proof.
  intros Hb He. split; [apply length_insert |]. intros j b' Hb'.
  destruct (decide (i = j)) as [<- | Hij].
  - right. rewrite Hb in Hb'. injection Hb' as <-.
    rewrite list_lookup_insert_eq by (by eapply lookup_lt_Some).
    unfold strip_end. by rewrite He.
  - left. by rewrite list_lookup_insert_ne.
Qed.

Lemma worn_step i bs bs' b :
  bs !! i = Some b -> has_end b = true ->
  worn (S i) (<[i := Re.re_sub RE_CODE_BLK_END b]> bs) bs' ->
  worn i bs bs'.
Proof.
  intros Hb He [Hlen H]. split; [by rewrite Hlen, length_insert |].
  pose proof (lookup_lt_Some _ _ _ Hb) as Hi.
  intros j b' Hb'. destruct (decide (i = j)) as [<- | Hij].
  - rewrite Hb in Hb'. injection Hb' as <-. right.
    split_and!; [done | done |].
    destruct (H i _ (list_lookup_insert_eq _ _ _ Hi))
      as [Hs | (? & _)]; [|lia].
    unfold strip_end. by rewrite He.
  - destruct (H j b') as [? | (? & ? & ?)];
      [by rewrite list_lookup_insert_ne | by left | right].
    split_and!; [lia | done | done].
Qed.

Lemma passed_miss i bs b :
  bs !! i = Some b -> has_end b = false ->
  take (S i) bs ++ (strip_end <$> drop (S i) bs)
  = take i bs ++ (strip_end <$> drop i bs).
Proof.
  intros Hb He. rewrite (take_S_r _ _ _ Hb), (drop_S _ _ _ Hb), fmap_cons.
  replace (strip_end b) with b by (unfold strip_end; by rewrite He).
  by rewrite <- app_assoc.
Qed.

Lemma passed_hit i bs b :
  bs !! i = Some b -> has_end b = true ->
  take (S i) (<[i := Re.re_sub RE_CODE_BLK_END b]> bs)
    ++ (strip_end <$> drop (S i) (<[i := Re.re_sub RE_CODE_BLK_END b]> bs))
  = take i bs ++ (strip_end <$> drop i bs).
Proof.
  intros Hb He. pose proof (lookup_lt_Some _ _ _ Hb) as Hi.
  rewrite (take_S_r _ _ (Re.re_sub RE_CODE_BLK_END b))
    by (by apply list_lookup_insert_eq).
  rewrite take_insert_ge, drop_insert_lt by lia.
  rewrite (drop_S _ _ _ Hb), fmap_cons.
  replace (strip_end b) with (Re.re_sub RE_CODE_BLK_END b)
    by (unfold strip_end; by rewrite He).
  by rewrite <- app_assoc.
Qed.

(** The loop from block [i] on, in any world. *)
Lemma for_blocks_spec env : forall todo i st r st',
  result st = [] -> length (blocks st) <= i + todo ->
  for_blocks env todo i st = (r, st') ->
  result st' = []
  /\ spawned st <= spawned st'
  /\ spawned st' <= spawned st + count_ends (drop i (blocks st))
  /\ launches (log st') + spawned st = launches (log st) + spawned st'
  /\ match r with
     | Return (Some b) =>
         b = true
         /\ (exists k bk root,
               i <= k /\ blocks st !! k = Some bk /\ has_end bk = true
               /\ blocks st' = drop (S k) (blocks st)
               /\ parent st' = append (parent st) root)
         /\ (exists n e,
               spawned st' = S n /\ parse_stdout env n = Some e
               /\ forall m, spawned st <= m < n -> parse_stdout env m = None)
     | Return None =>
         blocks st' = take i (blocks st) ++ (strip_end <$> drop i (blocks st))
         /\ parent st' = parent st
         /\ spawned st' = spawned st + count_ends (drop i (blocks st))
         /\ forall m, spawned st <= m < spawned st' ->
              parse_stdout env m = None
     | Raise e =>
         worn i (blocks st) (blocks st') /\ parent st' = parent st
         /\ from_env env e
     end.
Proof.
  assert (forall i (st : State), length (blocks st) <= i ->
            blocks st = take i (blocks st) ++ (strip_end <$> drop i (blocks st))
            /\ count_ends (drop i (blocks st)) = 0) as Hend.
  { intros i st Hi. by rewrite drop_ge, take_ge, app_nil_r by lia. }
  induction todo as [|todo IH]; intros i st r st' Hq Hlen.
  { intros [= <- <-]. destruct (Hend i st) as [<- ->]; [lia |].
    split_and!; try done; lia. }
  cbn [for_blocks]. destruct (blocks st !! i) as [b|] eqn:Hb.
  2:{ intros [= <- <-]. apply lookup_ge_None in Hb.
      destruct (Hend i st) as [<- ->]; [lia |].
      split_and!; try done; lia. }
  pose proof (lookup_lt_Some _ _ _ Hb) as Hi.
  assert (count_ends (drop i (blocks st))
          = (if has_end b then 1 else 0)
            + count_ends (drop (S i) (blocks st))) as Hcount
    by (by rewrite (drop_S _ _ _ Hb)).
  fold (has_end b). destruct (has_end b) eqn:He.
  - rewrite bind_unfold. unfold set_item at 1. rewrite Hb.
    set (s1 := set_blocks st _). rewrite bind_unfold.
    destruct (render env i s1) as [r1 s2] eqn:Hr.
    apply render_spec in Hr as (Q2 & S2 & L2 & Hr);
      [| subst s1; cbn; rewrite length_insert; lia | done].
    subst s1. cbn [blocks parent log spawned set_blocks] in *.
    destruct r1 as [[b1|]|e].
    + destruct Hr as (-> & B2 & e & root & Hparse & P2).
      intros [= <- <-]. rewrite drop_insert_lt in B2 by lia.
      split_and!; try done; try lia.
      * exists i, b, root. by split_and!.
      * exists (spawned st), e. split_and!; [done | done | intros; lia].
    + destruct Hr as (B2 & P2 & Hparse). intros H.
      apply IH in H as (Q3 & S3 & S3' & L3 & H);
        [| done | rewrite B2, length_insert; lia].
      rewrite B2, drop_insert_lt in S3' by lia.
      split_and!; try done; try lia.
      destruct r as [[b1|]|e].
      * destruct H as (-> & (k & bk & root & Hk & Hbk & Hek & B3 & P3)
                         & (n & e & Hn & He1 & Hm)).
        split; [done |]. split.
        -- exists k, bk, root.
           rewrite B2 in Hbk, B3.
           rewrite list_lookup_insert_ne in Hbk by lia.
           rewrite drop_insert_lt in B3 by lia.
           split_and!; try done; [lia | congruence].
        -- exists n, e. split_and!; [done | done |].
           intros m Hm'. destruct (decide (m = spawned st)) as [-> | ?];
             [done | apply Hm; lia].
      * destruct H as (B3 & P3 & S3'' & Hm).
        rewrite B2 in B3, S3''. rewrite (passed_hit _ _ _ Hb He) in B3.
        rewrite drop_insert_lt in S3'' by lia.
        split_and!; [done | congruence | lia |].
        intros m Hm'. destruct (decide (m = spawned st)) as [-> | ?];
          [done | apply Hm; lia].
      * destruct H as (W & P3 & Henv). rewrite B2 in W.
        split_and!; [by eapply worn_step | congruence | done].
    + destruct Hr as (B2 & P2 & Henv). intros [= <- <-].
      split_and!; try done; try lia.
      rewrite B2. by apply worn_insert.
  - intros H. apply IH in H as (Q3 & S3 & S3' & L3 & H); [| done | lia].
    split_and!; try done; try lia.
    destruct r as [[b1|]|e].
    + destruct H as (-> & (k & bk & root & Hk & H) & Hn).
      split; [done |]. split; [|done].
      exists k, bk, root. split; [lia | done].
    + destruct H as (B3 & P3 & S3'' & Hm).
      rewrite (passed_miss _ _ _ Hb He) in B3.
      split_and!; [done | done | lia | done].
    + destruct H as (W & P3 & Henv).
      split_and!; [by eapply worn_mono; [|exact W]; lia | done | done].
Qed.

(** [run] on a list with a first block, in any world. *)
Lemma run_spec env par b0 rest r st' :
  run env par (b0 :: rest) = (r, st') ->
  result st' = []
  /\ launches (log st') = spawned st'
  /\ spawned st' <= count_ends (opened (b0 :: rest))
  /\ match r with
     | Return true =>
         (exists k bk root,
            opened (b0 :: rest) !! k = Some bk /\ has_end bk = true
            /\ blocks st' = drop (S k) (b0 :: rest)
            /\ parent st' = append par root)
         /\ (exists n e,
               spawned st' = S n /\ parse_stdout env n = Some e
               /\ forall m, m < n -> parse_stdout env m = None)
     | Return false =>
         blocks st' = b0 :: (strip_end <$> rest) /\ parent st' = par
         /\ spawned st' = count_ends (opened (b0 :: rest))
         /\ forall m, m < spawned st' -> parse_stdout env m = None
     | Raise e =>
         worn 0 (opened (b0 :: rest)) (blocks st') /\ parent st' = par
         /\ from_env env e
     end.
Proof.
  rewrite run_unfold, bind_unfold.
  destruct (for_blocks env (S (length rest)) 0 _) as [r1 s1] eqn:Hl.
  apply for_blocks_spec in Hl as (Q1 & _ & S1 & L1 & H);
    [| done | cbn; lia].
  cbn [blocks parent log spawned launches] in *. rewrite drop_0 in *.
  destruct r1 as [[b1|]|e].
  - destruct H as (-> & (k & bk & root & _ & Hbk & Hek & B1 & P1)
                     & (n & e & Hn & He & Hm)).
    intros [= <- <-]. split_and!; [done | lia | lia | |].
    + by exists k, bk, root.
    + exists n, e. split_and!; [done | done | intros; apply Hm; lia].
  - destruct H as (B1 & P1 & S1' & Hm).
    rewrite take_0 in B1. cbn [app] in B1.
    rewrite bind_unfold. unfold set_item at 1. rewrite B1.
    unfold opened. rewrite fmap_cons. cbn [lookup list_lookup].
    intros [= <- <-]. cbn [blocks parent result log spawned set_blocks].
    unfold opened in *. split_and!; try done; try lia.
    intros; apply Hm; lia.
  - destruct H as (W & P1 & Henv). intros [= <- <-].
    split_and!; try done; lia.
Qed.

End SpecFacts.

(** ** The closing fence *)

Module EndFacts.
Import Re StrFacts ReFacts FenceFacts.

Lemma blank_app a b : blank (a +:+ b) = blank a && blank b.
Proof.
  induction a as [|x a IH]; [done |].
  rewrite app_cons. cbn [blank]. by rewrite IH, andb_assoc.
Qed.

Lemma blank_stops w : blank w = true -> stops backtick w.
Proof.
  destruct w as [|x w]; [done |]. cbn [blank stops].
  intros H ->. apply andb_true_iff in H as [H _]. by vm_compute in H.
Qed.

(** [\s*$] takes all the white space there is, so it matches only when
    nothing else is left, and then to the end of the string. *)
Lemma rep_space_eos s r :
  rep Space 0 (items [Eos]) s = Some r <-> r = "" /\ blank s = true.
Proof.
  revert r. induction s as [|x s IH]; intros r; cbn [rep blank accepts].
  - cbn. split; [by intros [= <-] | by intros [-> _]].
  - destruct (isspace x) eqn:Hx; cbn [Nat.pred Nat.eqb andb].
    + destruct (rep Space 0 (items [Eos]) s) as [r'|] eqn:Hr.
      * destruct (proj1 (IH r') eq_refl) as [-> Hs].
        split; [by intros [= <-] | by intros [-> _]].
      * cbn [items]. destruct (at_eos (String x s)) eqn:Heos.
        -- destruct s as [|y s]; [|done]. by cbn in Hr.
        -- split; [done |]. intros [-> Hs].
           pose proof (proj2 (IH "") (conj eq_refl Hs)). congruence.
    + cbn [items]. destruct (at_eos (String x s)) eqn:Heos.
      * destruct s as [|y s]; [|done]. cbn in Heos.
        apply Ascii.eqb_eq in Heos as ->. done.
      * split; [done | by intros [_ ?]].
Qed.

Lemma end_unfold x s :
  items (body RE_CODE_BLK_END) (String x s) =
  if Ascii.eqb newline x then
    rep (Lit space) 0
      (rep (Lit backtick) 3 (rep Space 0 (items [Eos]))) s
  else None.
Proof. reflexivity. Qed.

(** The closing pattern matches at the start of exactly the closing
    fences, and the match takes all of the text. *)
Lemma end_Some s r :
  items (body RE_CODE_BLK_END) s = Some r <-> r = "" /\ closing_fence s.
Proof.
  split.
  - destruct s as [|x s]; [done |]. rewrite end_unfold.
    destruct (Ascii.eqb_spec newline x) as [<-|]; [|done]. intros H.
    apply rep_lit_inv in H as (i & t1 & _ & -> & H).
    apply rep_lit_inv in H as (n & t2 & Hn & -> & H).
    apply rep_space_eos in H as [-> Hw].
    split; [done |]. by exists i, n, t2.
  - intros (-> & i & n & w & Hn & Hw & ->).
    unfold nl. rewrite app_cons, app_nil_l, end_unfold, Ascii.eqb_refl.
    apply rep_lit_greedy; [lia | |].
    { destruct n as [|n]; [lia | done]. }
    apply rep_lit_greedy; [lia | by apply blank_stops |].
    by apply rep_space_eos.
Qed.

Lemma end_None s :
  items (body RE_CODE_BLK_END) s = None <-> ~ closing_fence s.
Proof.
  destruct (items (body RE_CODE_BLK_END) s) as [r|] eqn:H.
  - apply end_Some in H as [_ H]. split; [done | by intros []].
  - split; [|done]. intros _ Hc.
    by rewrite (proj2 (end_Some s "") (conj eq_refl Hc)) in H.
Qed.

(** A pattern without [^] is found exactly when it matches at the start of
    a suffix. *)
Lemma search_nobol p :
  bol p = false ->
  forall s b,
    is_Some (search_from p b s) <->
    exists pre t, s = pre +:+ t /\ is_Some (items (body p) t).
Proof.
  intros Hp s b. split.
  - revert b. induction s as [|x s IH]; intros b; cbn [search_from];
      unfold at_pos; rewrite Hp; cbn [andb].
    + destruct (items (body p) "") as [r|] eqn:Hr; [|by intros []].
      intros _. exists "", "". by rewrite Hr.
    + destruct (items (body p) (String x s)) as [r|] eqn:Hr.
      * intros _. exists "", (String x s). by rewrite Hr.
      * cbn [fmap option_fmap option_map]. intros H.
        destruct (search_from p false s) as [ij|] eqn:Hs; [|by destruct H].
        destruct (IH false) as (pre & t & -> & Ht); [by rewrite Hs |].
        by exists (String x pre), t.
  - intros (pre & t & -> & [r Hr]).
    apply (search_suffix p true b t); [done | by exists pre |].
    destruct t; cbn [search_from]; unfold at_pos; rewrite Hp, Hr; by eexists.
Qed.

(** A block in which [re.search] finds the closing pattern ends with a
    closing fence. *)
Lemma has_end_inv b :
  has_end b = true -> exists pre t, b = pre +:+ t /\ closing_fence t.
Proof.
  unfold has_end, re_search. rewrite truthy_true.
  rewrite (search_nobol RE_CODE_BLK_END eq_refl).
  intros (pre & t & -> & [r H]). exists pre, t. split; [done |].
  by apply end_Some in H as [_ H].
Qed.

Lemma sub_from_all p s : forall n,
  String.length s <= n -> sub_from p false n s = "".
Proof.
  induction s as [|x s IH]; intros n Hn; [done |].
  destruct n as [|n]; cbn in Hn; [lia |]. cbn [sub_from]. apply IH. lia.
Qed.

(** [re.sub] of the closing pattern cuts the text at its leftmost closing
    fence; a text without one is left as it is. *)
Lemma sub_end s : forall b,
  exists pre t,
    s = pre +:+ t
    /\ sub_from RE_CODE_BLK_END b 0 s = pre
    /\ (if truthy (search_from RE_CODE_BLK_END b s)
        then closing_fence t else t = "")
    /\ forall p1 p2, pre = p1 +:+ p2 -> p2 <> "" ->
         ~ closing_fence (p2 +:+ t).
Proof.
  induction s as [|x s IH]; intros b.
  - exists "", "". split_and!; try done.
    intros [|] [|] H; done.
  - cbn [sub_from search_from]. unfold at_pos.
    cbn [bol RE_CODE_BLK_END andb].
    change (items _ (String x s))
      with (items (body RE_CODE_BLK_END) (String x s)).
    destruct (items (body RE_CODE_BLK_END) (String x s)) as [r|] eqn:Hr.
    + apply end_Some in Hr as [-> Hc].
      cbn [fmap option_fmap option_map String.length Nat.sub truthy].
      exists "", (String x s). split_and!; try done.
      * apply sub_from_all. lia.
      * intros [|] [|] H; done.
    + cbn [fmap option_fmap option_map].
      destruct (IH false) as (pre & t & Hs & Hsub & Hfound & Hleft).
      exists (String x pre), t. rewrite truthy_fmap, Hsub.
      split_and!; [by rewrite app_cons, <- Hs | done | done |].
      intros [|y p1] p2 Hp Hp2.
      * rewrite app_nil_l in Hp. subst p2.
        rewrite app_cons, <- Hs. by apply end_None.
      * rewrite app_cons in Hp. injection Hp as _ Hp. by eapply Hleft.
Qed.

Lemma strip_end_sub b : strip_end b = re_sub RE_CODE_BLK_END b.
Proof.
  unfold strip_end, has_end, re_search, re_sub.
  destruct (sub_end b true) as (pre & t & Hs & Hsub & Hfound & _).
  destruct (truthy _); [done |]. subst t.
  by rewrite Hsub, Hs, app_nil_r.
Qed.

Lemma repeat_app_inv x c n : forall b pre t,
  x <> c -> Str.repeat x n +:+ b = pre +:+ String c t ->
  exists pre', b = pre' +:+ String c t.
Proof.
  induction n as [|n IH]; intros b pre t Hx H.
  - by exists pre.
  - cbn [Str.repeat] in H. rewrite app_cons in H.
    destruct pre as [|y pre].
    + rewrite app_nil_l in H. by injection H as -> _.
    + rewrite app_cons in H. injection H as _ H. by eapply IH.
Qed.

End EndFacts.

(** ** A write that raises *)

Module WriteFacts.
Import MonadFacts FenceFacts LoopFacts RunFacts.
Local Open Scope list_scope.

(** The loop of writes stops at the first write that raises: the writes
    up to and including that one are in the log. *)
Lemma feed_fails env n w e :
  write_raises env n w = Some e ->
  (forall w', w' < w -> write_raises env n w' = None) ->
  forall count i st, i + count <= length (blocks st) ->
  2 * i <= w < 2 * (i + count) ->
  feed env n count i st
  = (Raise e,
     add_logs st (take (S (w - 2 * i))
                    (feed_log n (take count (drop i (blocks st)))))).
Proof.
  intros He Hw. induction count as [|count IH]; intros i st Hlen Hi; [lia |].
  destruct (lookup_lt_is_Some_2 (blocks st) i) as [b Hb]; [lia |].
  cbn [feed]. rewrite bind_unfold. unfold get_item at 1. rewrite Hb.
  rewrite (drop_S _ _ _ Hb). cbn [take feed_log]. unfold stdin_write.
  destruct (decide (w = 2 * i)) as [Hw0 | Hw0].
  { rewrite <- Hw0, He. mrun. by rewrite Hw0, Nat.sub_diag. }
  rewrite (Hw (2 * i)) by lia. mrun.
  destruct (decide (w = 2 * i + 1)) as [Hw1 | Hw1].
  { rewrite <- Hw1, He. mrun.
    replace (w - 2 * i) with 1 by lia.
    unfold add_logs, add_log. cbn. by rewrite take_0, <- !app_assoc. }
  rewrite (Hw (2 * i + 1)) by lia. mrun.
  rewrite IH by (cbn; lia). cbn [blocks add_log].
  assert (w - 2 * i = S (S (w - 2 * S i))) as -> by lia.
  cbn [take]. st_norm. by rewrite <- !app_assoc.
Qed.

Lemma render_write_fails env k st w e :
  popen_raises env (spawned st) = None -> k < length (blocks st) ->
  w < 2 * S k ->
  write_raises env (spawned st) w = Some e ->
  (forall w', w' < w -> write_raises env (spawned st) w' = None) ->
  render env k st
  = (Raise e,
     mkState (blocks st) (parent st) (result st)
       (log st ++ [Popen (spawned st) cmd false; ThreadStart (spawned st)]
          ++ take (S w) (feed_log (spawned st) (take (S k) (blocks st))))
       (S (spawned st))).
Proof.
  intros Hp Hk Hlt He Hw. unfold render at 1. rewrite bind_unfold.
  unfold popen at 1. rewrite Hp. mrun.
  rewrite (feed_fails env _ w e He Hw) by (cbn; lia).
  cbn [blocks add_child add_log]. rewrite drop_0, Nat.sub_0_r.
  replace (k + 1) with (S k) by lia.
  unfold add_logs. cbn. by rewrite <- !app_assoc.
Qed.

End WriteFacts.

(** ** One child at a time *)

Module TurnFacts.
Import MonadFacts LoopFacts.
Local Open Scope list_scope.

Lemma turn_bind n {A B} (m : M A) (f : A -> M B) :
  turn n m -> (forall a, turn n (f a)) -> turn n (m ≫= f).
Proof.
  intros Hm Hf st. rewrite bind_unfold.
  destruct (Hm st) as (Hs & l & Hl & HP).
  destruct (m st) as [[a|e] st1]; cbn in *.
  - destruct (Hf a st1) as (Hs' & l' & Hl' & HP').
    split; [congruence |]. exists (l ++ l').
    rewrite Hl', Hl, app_assoc. split; [done | by apply Forall_app].
  - split; [done |]. by exists l.
Qed.

Lemma turn_silent n {A} (m : M A) :
  (forall st, log (m st).2 = log st /\ spawned (m st).2 = spawned st) ->
  turn n m.
Proof.
  intros H st. destruct (H st) as [Hl Hs]. split; [done |].
  exists []. by rewrite app_nil_r.
Qed.

Lemma turn_ret n {A} (a : A) : turn n (mret a).
Proof. by apply turn_silent. Qed.

Lemma turn_call n ev : in_turn n ev -> turn n (call ev).
Proof.
  intros H st. split; [done |]. exists [ev].
  split; [done | by apply Forall_singleton].
Qed.

Lemma turn_answer n o : turn n (answer o).
Proof. destruct o; by apply turn_silent. Qed.

Lemma turn_get_item n i : turn n (get_item i).
Proof.
  apply turn_silent. intros st. unfold get_item.
  by destruct (blocks st !! i).
Qed.

Lemma turn_set_item n i v : turn n (set_item i v).
Proof.
  apply turn_silent. intros st. unfold set_item.
  by destruct (blocks st !! i).
Qed.

Lemma turn_pop_blocks n count : turn n (pop_blocks count).
Proof.
  induction count as [|count IH]; [apply turn_ret |].
  cbn [pop_blocks]. apply turn_bind; [|intros _; exact IH].
  apply turn_silent. intros st. unfold pop0. by destruct (blocks st).
Qed.

Lemma turn_write env n w data : turn n (stdin_write env n w data).
Proof.
  unfold stdin_write. apply turn_bind; [by apply turn_call |].
  intros _. apply turn_answer.
Qed.

Lemma turn_feed env n : forall count i, turn n (feed env n count i).
Proof.
  induction count as [|count IH]; intros i; [apply turn_ret |].
  cbn [feed]. apply turn_bind; [apply turn_get_item |]. intros b.
  apply turn_bind; [apply turn_write |]. intros _.
  apply turn_bind; [apply turn_write |]. intros _. apply IH.
Qed.

Lemma turn_try_close env n : turn n (try_close (stdin_close env n)).
Proof.
  intros st. unfold try_close, stdin_close. rewrite bind_unfold.
  cbn [call].
  assert (exists l, log (add_log st (StdinClose n)) = log st ++ l
                    /\ Forall (in_turn n) l) as He
    by (exists [StdinClose n]; split; [done | by apply Forall_singleton]).
  destruct (close_raises env n) as [[|errno| |name]|]; cbn; try done.
  by destruct (errno =? EINVAL)%Z.
Qed.

Lemma turn_join env n : turn n (join env n).
Proof.
  intros st. split; [done |]. exists [ThreadJoin n].
  split; [done | by apply Forall_singleton].
Qed.

Lemma turn_parse_cell n env e p : turn n (parse_cell env e p).
Proof.
  unfold parse_cell. destruct (get_at p (getroot e)) as [c|];
    [|apply turn_ret].
  apply turn_bind; [by apply turn_call |]. intros _.
  apply turn_bind; [by apply turn_silent |]. intros c'. apply turn_ret.
Qed.

Lemma turn_for_cells n env ps : forall e, turn n (for_cells env ps e).
Proof.
  induction ps as [|p ps IH]; intros e; [apply turn_ret |].
  cbn [for_cells]. apply turn_bind; [apply turn_parse_cell |]. apply IH.
Qed.

Lemma turn_parse_all_cells n env e : turn n (parse_all_cells env e).
Proof.
  unfold parse_all_cells, parse_cells.
  repeat (apply turn_bind; [apply turn_for_cells | intros ?]).
  apply turn_for_cells.
Qed.

Lemma turn_queue_get n : turn n queue_get.
Proof.
  apply turn_silent. intros st. unfold queue_get. by destruct (result st).
Qed.

(** An iteration launches one child, and all its calls are [in_turn] of
    that child. *)
Lemma render_turn env k st :
  spawned (render env k st).2 = S (spawned st)
  /\ exists l, log (render env k st).2 = log st ++ l
               /\ Forall (in_turn (spawned st)) l.
Proof.
  assert (popen env cmd false st
          = (match popen_raises env (spawned st) with
             | None => Return (spawned st)
             | Some e => Raise e
             end,
             add_child (add_log st (Popen (spawned st) cmd false)))) as Hp
    by (unfold popen; by destruct (popen_raises env (spawned st))).
  unfold render. rewrite bind_unfold, Hp. clear Hp.
  set (n := spawned st).
  set (st1 := add_child (add_log st (Popen n cmd false))).
  destruct (popen_raises env n).
  { split; [done |]. exists [Popen n cmd false].
    split; [reflexivity | apply Forall_singleton; reflexivity]. }
  match goal with |- context [?m st1] =>
    assert (turn n m) as Hm end.
  { apply turn_bind; [by apply turn_call |]. intros _.
    apply turn_bind; [apply turn_feed |]. intros _.
    apply turn_bind; [apply turn_try_close |]. intros _.
    apply turn_bind; [apply turn_join |]. intros _.
    apply turn_bind; [apply turn_queue_get |]. intros [e|];
      [|apply turn_ret].
    apply turn_bind; [apply turn_parse_all_cells |]. intros e'.
    apply turn_bind; [by apply turn_silent |]. intros _.
    apply turn_bind; [apply turn_pop_blocks |]. intros _. apply turn_ret. }
  destruct (Hm st1) as (Hs & l & Hl & HP). split; [by rewrite Hs |].
  exists (Popen n cmd false :: l). rewrite Hl. subst st1. cbn.
  rewrite <- app_assoc. split; [done |]. by constructor.
Qed.

Lemma serial_mono lo lo' l : lo <= lo' -> serial lo' l -> serial lo l.
Proof.
  destruct l as [|ev l]; [done |]. cbn [serial].
  destruct (child_of ev); [|].
  - intros ? [? ?]. split; [lia | done].
  - revert lo lo'. induction l as [|ev' l IH]; intros lo lo' Hlo; [done |].
    cbn [serial]. destruct (child_of ev'); [|by apply IH].
    intros [? ?]. split; [lia | done].
Qed.

Lemma serial_app lo hi l1 l2 :
  lo <= hi -> serial lo l1 -> below (S hi) l1 -> serial hi l2 ->
  serial lo (l1 ++ l2).
Proof.
  revert lo. induction l1 as [|ev l1 IH]; intros lo Hlo H1 Hb H2.
  - by eapply serial_mono.
  - cbn [app serial] in *. apply Forall_cons in Hb as [Hev Hb].
    destruct (child_of ev) as [c|].
    + destruct H1 as [Hc H1]. split; [done |].
      apply IH; [|done | done | done].
      specialize (Hev c eq_refl). lia.
    + by apply IH.
Qed.

Lemma in_turn_serial n l : Forall (in_turn n) l -> serial n l.
Proof.
  induction l as [|ev l IH]; [done |]. intros [Hev Hl]%Forall_cons.
  cbn [serial]. destruct ev; cbn in *; try (injection Hev as ->); auto.
Qed.

Lemma in_turn_below n l : Forall (in_turn n) l -> below (S n) l.
Proof.
  intros H. eapply Forall_impl; [exact H |].
  intros ev Hev c Hc. destruct ev; cbn in *; try done;
    injection Hev as <-; injection Hc as <-; lia.
Qed.

Lemma in_turn_emptied n l : Forall (in_turn n) l -> emptied l.
Proof.
  intros H. eapply Forall_impl; [exact H |]. intros ev Hev c t ->. exact Hev.
Qed.

Lemma below_mono hi hi' l : hi <= hi' -> below hi l -> below hi' l.
Proof.
  intros Hhi H. eapply Forall_impl; [exact H |]. intros ev Hev c Hc.
  specialize (Hev c Hc). lia.
Qed.

(** What the loop adds to the log. *)
Lemma for_blocks_serial env : forall todo i st,
  spawned st <= spawned (for_blocks env todo i st).2
  /\ exists l,
       log (for_blocks env todo i st).2 = log st ++ l
       /\ serial (spawned st) l
       /\ below (spawned (for_blocks env todo i st).2) l
       /\ emptied l.
Proof.
  assert (forall st : State,
            spawned st <= spawned st
            /\ exists l, log st = log st ++ l /\ serial (spawned st) l
                         /\ below (spawned st) l /\ emptied l) as Hnil.
  { intros st. split; [done |]. exists [].
    rewrite app_nil_r. by split_and!; try constructor. }
  induction todo as [|todo IH]; intros i st; [apply Hnil |].
  cbn [for_blocks]. destruct (blocks st !! i) as [b|] eqn:Hb; [|apply Hnil].
  destruct (truthy (Re.re_search RE_CODE_BLK_END b)); [|apply IH].
  rewrite bind_unfold. unfold set_item. rewrite Hb.
  set (st1 := set_blocks st _). rewrite bind_unfold.
  destruct (render_turn env i st1) as (Hs & l & Hl & HP).
  change (spawned st1) with (spawned st) in *.
  change (log st1) with (log st) in *.
  destruct (render env i st1) as [[[r|]|e] st2];
    cbn [mret M_ret fst snd] in *.
  1,3: split; [lia |]; exists l; rewrite Hs;
       split_and!; [done | by apply in_turn_serial | by apply in_turn_below
                    | by eapply in_turn_emptied].
  destruct (IH (S i) st2) as (Hs' & l' & Hl' & Hser & Hbel & Hemp).
  split; [lia |]. exists (l ++ l'). rewrite Hl', Hl, app_assoc.
  split_and!; [done | | |].
  - eapply (serial_app _ (spawned st));
      [done | by apply in_turn_serial | by apply in_turn_below |].
    eapply serial_mono; [|exact Hser]. lia.
  - apply Forall_app. split; [|done].
    eapply below_mono; [|by apply in_turn_below]. lia.
  - apply Forall_app. split; [by eapply in_turn_emptied | done].
Qed.

Lemma run_serial env par bs :
  serial 0 (log (run env par bs).2)
  /\ below (spawned (run env par bs).2) (log (run env par bs).2)
  /\ emptied (log (run env par bs).2).
Proof.
  destruct bs as [|b0 rest]; [by split_and!; constructor |].
  rewrite RunFacts.run_unfold, bind_unfold.
  match goal with |- context [for_blocks env ?t 0 ?s] =>
    destruct (for_blocks_serial env t 0 s) as (Hs & l & Hl & H1 & H2 & H3);
    destruct (for_blocks env t 0 s) as [[[r|]|e] st2] end;
    cbn [mret M_ret fst snd log spawned] in *.
  1,3: rewrite app_nil_l in Hl; rewrite Hl; by split_and!.
  rewrite bind_unfold. unfold set_item.
  destruct (blocks st2 !! 0); cbn; rewrite Hl; by split_and!.
Qed.

End TurnFacts.

(** * The claims *)

(** C4, as stated: [test] is true exactly when the block begins with a line
    of the form [ *`{3,}mcgtable *].  It fails on a block that is such a
    line and nothing else: the pattern of the code ends in a newline, which
    this block does not have. *)
Lemma test_bare_fence_is_false :
  fence_line (first_line Sample.bare_fence) /\
  test Sample.div Sample.bare_fence Sample.state0
  = (Return None, Sample.state0).
Proof.
  split; [|reflexivity].
  exists 0, 3, 0. split; [lia | reflexivity].
Qed.

(** C4, amended: [test] returns a match (a true value) exactly when the
    block starts with optional spaces, three or more backticks, [mcgtable],
    optional spaces and a newline character; it returns [None] otherwise,
    and in particular on a block that is the fence line alone. *)
Theorem test_iff_fence_newline (parent : Element) (block : string)
    (st : State) :
  exists m, test parent block st = (Return m, st) /\
    (truthy m = true <->
     exists i n j rest, 3 <= n /\
       block = Str.repeat space i +:+ Str.repeat backtick n +:+ "mcgtable"
               +:+ Str.repeat space j +:+ nl +:+ rest).
Proof.
  exists (Re.re_match RE_CODE_BLK_START block). split; [reflexivity |].
  unfold Re.re_match, Re.at_pos. cbn [Re.bol RE_CODE_BLK_START andb negb].
  rewrite FenceFacts.truthy_fmap, FenceFacts.truthy_true. split.
  - intros [r Hr]. apply FenceFacts.start_Some in Hr
      as (i & n & j & Hn & ->).
    by exists i, n, j, r.
  - intros (i & n & j & r & Hn & ->). exists r.
    apply FenceFacts.start_Some. by exists i, n, j.
Qed.

(** C9: [test] leaves the state as it found it, blocks included, and its
    result depends on the block alone: a second invocation, in whatever
    state, returns what the first returned. *)
Theorem test_pure (parent : Element) (block : string) (st : State) :
  exists m,
    test parent block st = (Return m, st) /\
    (forall parent' st', test parent' block st' = (Return m, st')) /\
    (r1 ← test parent block; r2 ← test parent block; mret (r1, r2)) st
    = (Return (m, m), st).
Proof.
  exists (Re.re_match RE_CODE_BLK_START block). by repeat split.
Qed.

(** C5: when no block contains the closing fence, [run] returns [False],
    makes no call to the outside world (no child is launched) and leaves
    the list of blocks as it was given: the first block has its opening
    fence back, the others were never touched, none is removed.  (This
    holds whether or not the first block opens with the fence.) *)
Theorem run_unclosed (env : Env) (par : Element) (b0 : string)
    (rest : list string) :
  Forall (fun b => has_end b = false) (b0 :: rest) ->
  run env par (b0 :: rest)
  = (Return false, mkState (b0 :: rest) par [] [] 0).
Proof.
  intros Hno. rewrite RunFacts.run_unfold, MonadFacts.bind_unfold.
  rewrite LoopFacts.for_blocks_none; [reflexivity |].
  intros j b _ Hb. rewrite Forall_forall in Hno.
  destruct j as [|j]; cbn in Hb.
  - injection Hb as <-. apply FenceFacts.has_end_opened, Hno. by left.
  - apply Hno. right. by eapply list_elem_of_lookup_2.
Qed.

Lemma run_unclosed_witness :
  Forall (fun b => has_end b = false) Sample.unclosed /\
  run Sample.env_table Sample.div Sample.unclosed
  = (Return false, mkState Sample.unclosed Sample.div [] [] 0).
Proof.
  assert (Forall (fun b => has_end b = false) Sample.unclosed) as H
    by (repeat constructor).
  split; [exact H | exact (run_unclosed _ _ _ _ H)].
Defined.

(** C1, as stated: when the executable cannot be launched, [run] returns
    [False] with the first block restored and no exception escapes.  On a
    fenced region in one block and a launch that raises
    [FileNotFoundError], the exception escapes [run] and the block is left
    without its fences. *)
Lemma run_missing_program_raises :
  (forall n, is_Some (popen_raises Sample.env_missing n)) /\
  (exists b0 rest m st,
     Sample.one_block = b0 :: rest /\
     has_end b0 = true /\
     test Sample.div b0 st = (Return (Some m), st)) /\
  run Sample.env_missing Sample.div Sample.one_block
  = (Raise (OSError ENOENT),
     mkState ["a|b"] Sample.div [] [Popen 0 cmd false] 1).
Proof.
  split; [by eexists |]. split; [|reflexivity].
  eexists _, _, _, Sample.state0. by repeat split.
Qed.

(** C1, amended: when the loop of [run] reaches a block with a closing
    fence and the launch of the child raises, that exception escapes [run]:
    nothing is returned, nothing is written to a child, and the blocks stay
    as the loop has left them, the first without its opening fence (and
    without its closing fence, if it had one). *)
Theorem run_launch_error (env : Env) (par : Element) (b0 : string)
    (rest : list string) (k n : nat) (e : exn) :
  reaches env (opened (b0 :: rest)) k n ->
  popen_raises env n = Some e ->
  run env par (b0 :: rest)
  = (Raise e,
     mkState (blocks_at (opened (b0 :: rest)) (S k)) par []
       (quiet_log (opened (b0 :: rest)) k ++ [Popen n cmd false]) (S n))
  /\ blocks_at (opened (b0 :: rest)) (S k) !! 0
     = Some (strip_end (Re.re_sub RE_CODE_BLK_START b0)).
Proof.
  intros Hr He. split.
  - rewrite (RunFacts.run_reaches _ _ _ _ _ _ Hr).
    rewrite !MonadFacts.bind_unfold.
    by rewrite (LoopFacts.render_unlaunched _ _ _ e).
  - reflexivity.
Qed.

Lemma run_launch_error_witness :
  reaches Sample.env_missing (opened Sample.region) 1 0 /\
  popen_raises Sample.env_missing 0 = Some (OSError ENOENT) /\
  run Sample.env_missing Sample.div Sample.region
  = (Raise (OSError ENOENT),
     mkState ["a|b"; "1|2"; "after"] Sample.div []
       [Popen 0 cmd false] 1).
Proof.
  assert (reaches Sample.env_missing (opened Sample.region) 1 0) as H.
  { split; [by eexists | split; [reflexivity | intros m Hm; lia]]. }
  split; [exact H | split; [reflexivity |]].
  exact (proj1 (run_launch_error Sample.env_missing Sample.div _ _ 1 0 _
                  H eq_refl)).
Defined.

(** C2, at a failing input: the fenced region spans two blocks and the
    child prints nothing that parses.  [run] returns [False] and restores
    the first block, but block 1 has lost its closing fence. *)
Theorem run_silent_child_loses_fence :
  run Sample.env_silent Sample.div Sample.region
  = (Return false,
     mkState ["```mcgtable" +:+ nl +:+ "a|b"; "1|2"; "after"] Sample.div []
       (attempt_log 0 ["a|b"; "1|2"]) 1)
  /\ Sample.region !! 1 = Some ("1|2" +:+ nl +:+ "```").
Proof. split; reflexivity. Qed.

(** C3, at a failing input: two blocks end in a closing fence and no child
    prints anything that parses.  [run] launches a child and starts a
    reader at the first closing fence, and a second child and a second
    reader at the second. *)
Theorem run_two_fences_two_children :
  run Sample.env_silent Sample.div Sample.two_fences
  = (Return false,
     mkState ["```mcgtable" +:+ nl +:+ "a" +:+ nl +:+ "```"; "b"]
       Sample.div []
       ([Popen 0 cmd false; ThreadStart 0;
         StdinWrite 0 "a"; StdinWrite 0 (nl +:+ nl);
         StdinClose 0; ThreadJoin 0]
        ++ [Popen 1 cmd false; ThreadStart 1;
            StdinWrite 1 "a"; StdinWrite 1 (nl +:+ nl);
            StdinWrite 1 "b"; StdinWrite 1 (nl +:+ nl);
            StdinClose 1; ThreadJoin 1]) 2).
Proof. reflexivity. Qed.




(** C8: a [BrokenPipeError] raised by the close of the child's input is
    swallowed, and so is an [OSError] whose errno is [EINVAL]: [run] goes on
    as if the close had returned.  Any other [OSError] raised by the close
    escapes [run], which stops there: the reader is not joined. *)
Theorem close_errors (env : Env) (par : Element) (b0 : string)
    (rest : list string) :
  (forall n,
     close_raises env n = Some BrokenPipeError
     \/ close_raises env n = Some (OSError EINVAL) ->
     run env par (b0 :: rest)
     = run (with_close env n None) par (b0 :: rest)) /\
  (forall k n errno,
     reaches env (opened (b0 :: rest)) k n -> starts env n ->
     close_raises env n = Some (OSError errno) -> errno <> EINVAL ->
     run env par (b0 :: rest)
     = (Raise (OSError errno),
        mkState (blocks_at (opened (b0 :: rest)) (S k)) par []
          (quiet_log (opened (b0 :: rest)) k
             ++ [Popen n cmd false; ThreadStart n]
             ++ feed_log n (strip_end <$> take (S k) (opened (b0 :: rest)))
             ++ [StdinClose n])%list
          (S n))).
Proof.
  split.
  - intros n Hn. symmetry. apply ExtFacts.run_ext; try done.
    intros m st. apply ExtFacts.try_close_swallowed.
    by destruct Hn as [-> | ->].
  - intros k n errno Hr Hs He Hne.
    rewrite (RunFacts.run_reaches _ _ _ _ _ _ Hr).
    destruct Hr as ((b & Hk & _) & _ & _). apply lookup_lt_Some in Hk.
    rewrite !(MonadFacts.bind_unfold (_ ≫= _)).
    rewrite (MonadFacts.bind_unfold (render env k)).
    rewrite (LoopFacts.render_fatal _ _ _ (OSError errno));
      cbn [blocks parent result log spawned];
      [| done | rewrite LoopFacts.length_blocks_at; lia | done
       | cbn; by apply Z.eqb_neq].
    by rewrite LoopFacts.take_blocks_at by lia.
Qed.

Lemma close_errors_witness :
  run (with_close Sample.env_table 0 (Some BrokenPipeError))
    Sample.div Sample.region
  = run (with_close (with_close Sample.env_table 0 (Some BrokenPipeError))
           0 None)
      Sample.div Sample.region /\
  run (with_close Sample.env_table 0 (Some (OSError EINVAL)))
    Sample.div Sample.region
  = run (with_close (with_close Sample.env_table 0 (Some (OSError EINVAL)))
           0 None)
      Sample.div Sample.region /\
  run (with_close Sample.env_table 0 (Some (OSError EIO)))
    Sample.div Sample.region
  = (Raise (OSError EIO),
     mkState ["a|b"; "1|2"; "after"] Sample.div []
       [Popen 0 cmd false; ThreadStart 0;
        StdinWrite 0 "a|b"; StdinWrite 0 (nl +:+ nl);
        StdinWrite 0 "1|2"; StdinWrite 0 (nl +:+ nl);
        StdinClose 0] 1).
Proof.
  split; [|split].
  - exact (proj1 (close_errors
                    (with_close Sample.env_table 0 (Some BrokenPipeError))
                    Sample.div _ _) 0 (or_introl eq_refl)).
  - exact (proj1 (close_errors
                    (with_close Sample.env_table 0 (Some (OSError EINVAL)))
                    Sample.div _ _) 0 (or_intror eq_refl)).
  - assert (reaches (with_close Sample.env_table 0 (Some (OSError EIO)))
              (opened Sample.region) 1 0) as Hr.
    { split; [by eexists | split; [reflexivity | intros m Hm; lia]]. }
    assert (starts (with_close Sample.env_table 0 (Some (OSError EIO))) 0)
      as Hs by (by split).
    refine (proj2 (close_errors _ Sample.div _ _) 1 0 EIO Hr Hs eq_refl _).
    discriminate.
Defined.






(** * Further properties *)

(** X1: [re.search(RE_CODE_BLK_END, block)] finds a match exactly when the
    block ends with a closing fence: somewhere in the block there is a
    newline followed by spaces, three or more backticks and white space up
    to the end of the block. *)
Theorem closing_fence_found (b : string) :
  has_end b = true <-> exists pre t, b = pre +:+ t /\ closing_fence t.
Proof.
  split; [apply EndFacts.has_end_inv |].
  intros (pre & t & -> & Ht). unfold has_end, Re.re_search.
  apply FenceFacts.truthy_true.
  apply (EndFacts.search_nobol RE_CODE_BLK_END eq_refl).
  exists pre, t. split; [done |]. exists "". by apply EndFacts.end_Some.
Qed.

(** X2: [re.sub(RE_CODE_BLK_END, '', block)] cuts the block at its
    leftmost closing fence: the block is [pre] followed by [t], the result
    is [pre], [t] is a closing fence when [re.search] finds one and is
    empty otherwise (the block is returned as it is), and no closing fence
    starts inside [pre]. *)
Theorem closing_fence_removed (b : string) :
  exists pre t,
    b = pre +:+ t
    /\ Re.re_sub RE_CODE_BLK_END b = pre
    /\ (if has_end b then closing_fence t else t = "")
    /\ forall p1 p2, pre = p1 +:+ p2 -> p2 <> "" ->
         ~ closing_fence (p2 +:+ t).
Proof. exact (EndFacts.sub_end b true). Qed.

(** X3: when [re.match(RE_CODE_BLK_START, block)] matches, the block is a
    fence line (spaces, three or more backticks, [mcgtable], spaces), a
    newline and a rest; the match ends after that newline and
    [re.sub(RE_CODE_BLK_START, '', block)] is the rest.  When it does not
    match, [re.sub] returns the block as it is. *)
Theorem opening_fence_removed (b : string) :
  match Re.re_match RE_CODE_BLK_START b with
  | Some m =>
      exists i n j rest,
        3 <= n
        /\ b = Str.repeat space i +:+ Str.repeat backtick n +:+ "mcgtable"
               +:+ Str.repeat space j +:+ nl +:+ rest
        /\ m = i + n + 8 + j + 1
        /\ Re.re_sub RE_CODE_BLK_START b = rest
  | None => Re.re_sub RE_CODE_BLK_START b = b
  end.
Proof.
  rewrite ReFacts.re_sub_bol by done. unfold Re.re_match, Re.at_pos.
  cbn [Re.bol RE_CODE_BLK_START andb negb].
  change (Re.items _ b) with (Re.items (Re.body RE_CODE_BLK_START) b).
  destruct (Re.items (Re.body RE_CODE_BLK_START) b) as [r|] eqn:Hr;
    cbn [fmap option_fmap option_map default]; [|done].
  apply FenceFacts.start_Some in Hr as (i & n & j & Hn & ->).
  exists i, n, j, r. split_and!; [done | done | | done].
  rewrite !StrFacts.length_app, !StrFacts.length_repeat. cbn. lia.
Qed.

(** X4: the closing pattern begins with a newline, so a block that is
    nothing but a fence (spaces, backticks, white space) has no closing
    fence for [re.search]: a closing fence that a blank line separates from
    the table is not seen. *)
Theorem lone_fence_not_closing (i n : nat) (w : string) :
  blank w = true ->
  has_end (Str.repeat space i +:+ Str.repeat backtick n +:+ w) = false.
Proof.
  intros Hw. apply not_true_is_false. intros H.
  apply EndFacts.has_end_inv in H
    as (pre & t & H & i' & n' & w' & Hn' & _ & ->).
  unfold nl in H. rewrite StrFacts.app_cons, StrFacts.app_nil_l in H.
  apply EndFacts.repeat_app_inv in H as [p1 H]; [|done].
  apply EndFacts.repeat_app_inv in H as [p2 ->]; [|done].
  rewrite EndFacts.blank_app in Hw. apply andb_true_iff in Hw as [_ Hw].
  cbn [blank] in Hw. apply andb_true_iff in Hw as [_ Hw].
  rewrite !EndFacts.blank_app in Hw. apply andb_true_iff in Hw as [_ Hw].
  apply andb_true_iff in Hw as [Hw _].
  destruct n' as [|n']; [lia |]. done.
Qed.

Lemma lone_fence_not_closing_witness :
  blank "" = true /\ has_end ("" +:+ "```" +:+ "") = false.
Proof.
  split; [reflexivity | exact (lone_fence_not_closing 0 3 "" eq_refl)].
Defined.

(** X5: the loop of [run] looks for the closing fence in the first block
    after line 35 has removed the opening fence from it.  When what is left
    of the first block has no closing fence and no later block has one,
    [run] returns [False], launches nothing and leaves the blocks as they
    were given.  This is so for a fenced region with nothing in it, whose
    closing fence follows the opening fence line directly: the newline of
    the opening fence is gone when the closing pattern is searched. *)
Theorem run_closing_after_opening (env : Env) (par : Element) (b0 : string)
    (rest : list string) :
  has_end (Re.re_sub RE_CODE_BLK_START b0) = false ->
  Forall (fun b => has_end b = false) rest ->
  run env par (b0 :: rest) = (Return false, mkState (b0 :: rest) par [] [] 0).
Proof.
  intros H0 Hno. rewrite RunFacts.run_unfold, MonadFacts.bind_unfold.
  rewrite LoopFacts.for_blocks_none; [reflexivity |].
  intros j b _ Hb. rewrite Forall_forall in Hno.
  destruct j as [|j]; cbn in Hb.
  - by injection Hb as <-.
  - apply Hno. by eapply list_elem_of_lookup_2.
Qed.

Lemma run_closing_after_opening_witness :
  has_end ("```mcgtable" +:+ nl +:+ "```") = true /\
  has_end (Re.re_sub RE_CODE_BLK_START ("```mcgtable" +:+ nl +:+ "```"))
  = false /\
  run Sample.env_table Sample.div Sample.empty_region
  = (Return false, mkState Sample.empty_region Sample.div [] [] 0).
Proof.
  split; [reflexivity |]. split; [reflexivity |].
  exact (run_closing_after_opening Sample.env_table Sample.div
           ("```mcgtable" +:+ nl +:+ "```") [] eq_refl (Forall_nil_2 _)).
Defined.

(** X6: when [run] returns [False], the caller's parent is as it was and
    no block has been removed; the first block is as it was given, and
    every later block has lost its closing fence, if it had one.  One
    child was launched for each block that had a closing fence (the first
    block taken without its opening fence). *)
Theorem run_false_state (env : Env) (par : Element) (bs : list string)
    (st' : State) :
  run env par bs = (Return false, st') ->
  exists b0 rest,
    bs = b0 :: rest
    /\ blocks st' = b0 :: (Re.re_sub RE_CODE_BLK_END <$> rest)
    /\ parent st' = par
    /\ launches (log st') = count_ends (opened bs).
Proof.
  destruct bs as [|b0 rest]; [done |]. intros H.
  apply SpecFacts.run_spec in H as (_ & L & _ & B & P & S' & _).
  exists b0, rest. split_and!; [done | | done | congruence].
  rewrite B. f_equal. apply list_fmap_ext. intros _ b _.
  apply EndFacts.strip_end_sub.
Qed.

Lemma run_false_state_witness :
  exists st',
    run Sample.env_silent Sample.div Sample.region = (Return false, st')
    /\ exists b0 rest,
         Sample.region = b0 :: rest
         /\ blocks st' = b0 :: (Re.re_sub RE_CODE_BLK_END <$> rest)
         /\ parent st' = Sample.div
         /\ launches (log st') = count_ends (opened Sample.region).
Proof.
  eexists. split; [vm_compute; reflexivity |].
  apply (run_false_state Sample.env_silent Sample.div Sample.region).
  reflexivity.
Defined.

(** X7: when [run] returns [True], there is a block [k] with a closing
    fence such that the blocks 0 to [k] have been removed from the list and
    the blocks after [k] are left as they were given, and exactly one
    element has been appended to the caller's parent. *)
Theorem run_true_state (env : Env) (par : Element) (bs : list string)
    (st' : State) :
  run env par bs = (Return true, st') ->
  exists k bk root,
    opened bs !! k = Some bk /\ has_end bk = true
    /\ blocks st' = drop (S k) bs
    /\ parent st' = append par root.
Proof.
  destruct bs as [|b0 rest]; [done |]. intros H.
  by apply SpecFacts.run_spec in H as (_ & _ & _ & H & _).
Qed.

Lemma run_true_state_witness :
  exists st',
    run Sample.env_table Sample.div Sample.region = (Return true, st')
    /\ exists k bk root,
         opened Sample.region !! k = Some bk /\ has_end bk = true
         /\ blocks st' = drop (S k) Sample.region
         /\ parent st' = append Sample.div root.
Proof.
  eexists. split; [vm_compute; reflexivity |].
  apply (run_true_state Sample.env_table Sample.div Sample.region).
  reflexivity.
Defined.

(** X8: an exception that escapes [run] is the [IndexError] of
    [blocks[0]] on an empty list, or an exception that the outside world
    has raised: at a launch, at a write, at the close of the child's input
    (and not one of those the handler swallows) or in the host parser.
    The caller's parent is then as it was; no block has been removed, the
    first block is left without its opening fence, and each block is
    otherwise as it was given or without its closing fence. *)
Theorem run_raise_state (env : Env) (par : Element) (bs : list string)
    (e : exn) (st' : State) :
  run env par bs = (Raise e, st') ->
  parent st' = par
  /\ ((bs = [] /\ e = IndexError /\ blocks st' = [] /\ log st' = [])
      \/ (from_env env e /\ worn 0 (opened bs) (blocks st'))).
Proof.
  destruct bs as [|b0 rest].
  - intros [= <- <-]. split; [done |]. by left.
  - intros H. apply SpecFacts.run_spec in H as (_ & _ & _ & W & P & E).
    split; [done |]. by right.
Qed.

Lemma run_raise_state_witness :
  exists st',
    run Sample.env_missing Sample.div Sample.region
    = (Raise (OSError ENOENT), st')
    /\ parent st' = Sample.div
    /\ ((Sample.region = [] /\ OSError ENOENT = IndexError
         /\ blocks st' = [] /\ log st' = [])
        \/ (from_env Sample.env_missing (OSError ENOENT)
            /\ worn 0 (opened Sample.region) (blocks st'))).
Proof.
  eexists. split; [vm_compute; reflexivity |].
  apply (run_raise_state Sample.env_missing Sample.div Sample.region).
  reflexivity.
Defined.

(** X9: whatever the children and the host parser do, [run] calls
    [Popen] at most once for each block that has a closing fence (the first
    block taken without its opening fence). *)
Theorem run_launch_bound (env : Env) (par : Element) (bs : list string) :
  launches (log (run env par bs).2) <= count_ends (opened bs).
Proof.
  destruct bs as [|b0 rest]; [done |].
  destruct (run env par (b0 :: rest)) as [r st'] eqn:H.
  apply SpecFacts.run_spec in H as (_ & L & S' & _). cbn [snd]. lia.
Qed.

(** X10: an exception raised by a write to the child is not handled (the
    handler of [BrokenPipeError] covers the close only): when the loop
    reaches block [k], child [n] is launched and write [w] is the first
    write that raises, that exception escapes [run]; the writes up to and
    including write [w] are the last calls made, so the input of the child
    is not closed and the reader is not joined, and the blocks stay as the
    loop has left them. *)
Theorem run_write_error (env : Env) (par : Element) (b0 : string)
    (rest : list string) (k n w : nat) (e : exn) :
  reaches env (opened (b0 :: rest)) k n ->
  popen_raises env n = None ->
  w < 2 * S k ->
  write_raises env n w = Some e ->
  (forall w', w' < w -> write_raises env n w' = None) ->
  run env par (b0 :: rest)
  = (Raise e,
     mkState (blocks_at (opened (b0 :: rest)) (S k)) par []
       (quiet_log (opened (b0 :: rest)) k
          ++ [Popen n cmd false; ThreadStart n]
          ++ take (S w)
               (feed_log n (strip_end <$> take (S k) (opened (b0 :: rest)))))
       (S n))%list.
Proof.
  intros Hr Hp Hlt He Hw. rewrite (RunFacts.run_reaches _ _ _ _ _ _ Hr).
  rewrite !MonadFacts.bind_unfold.
  pose proof Hr as ((b & Hb & _) & _ & _).
  pose proof (lookup_lt_Some _ _ _ Hb) as Hk.
  rewrite (WriteFacts.render_write_fails env k _ w e);
    cbn [blocks parent result log spawned];
    [| done | rewrite LoopFacts.length_blocks_at; lia | done | done | done].
  by rewrite LoopFacts.take_blocks_at by lia.
Qed.

Lemma run_write_error_witness :
  reaches Sample.env_deaf (opened Sample.region) 1 0 /\
  write_raises Sample.env_deaf 0 1 = Some BrokenPipeError /\
  run Sample.env_deaf Sample.div Sample.region
  = (Raise BrokenPipeError,
     mkState ["a|b"; "1|2"; "after"] Sample.div []
       [Popen 0 cmd false; ThreadStart 0;
        StdinWrite 0 "a|b"; StdinWrite 0 (nl +:+ nl)] 1).
Proof.
  assert (reaches Sample.env_deaf (opened Sample.region) 1 0) as H.
  { split; [by eexists | split; [reflexivity | intros m Hm; lia]]. }
  split; [exact H | split; [reflexivity |]].
  refine (run_write_error Sample.env_deaf Sample.div _ _ 1 0 1 _
            H eq_refl _ eq_refl _).
  - lia.
  - intros w' Hw'. assert (w' = 0) as -> by lia. reflexivity.
Defined.

(** X11: the value [run] returns follows what the reader tasks have put
    in the queue, child by child (children are numbered in the order of the
    calls of [Popen]).  [run] returns [True] only when [etree.parse] in the
    reader of the last child launched has returned a document and the reader
    of every earlier child has put nothing: a document is taken from the
    queue in the iteration that has joined its reader, never in a later one.
    [run] returns [False] only when the reader of every child launched has
    put nothing. *)
Theorem run_result_follows_reader (env : Env) (par : Element)
    (bs : list string) :
  match (run env par bs).1 with
  | Return true =>
      exists n e,
        launches (log (run env par bs).2) = S n
        /\ parse_stdout env n = Some e
        /\ forall m, m < n -> parse_stdout env m = None
  | Return false =>
      forall m, m < launches (log (run env par bs).2) ->
        parse_stdout env m = None
  | Raise _ => True
  end.
Proof.
  destruct bs as [|b0 rest]; [done |].
  destruct (run env par (b0 :: rest)) as [r st'] eqn:H.
  apply SpecFacts.run_spec in H as (_ & L & _ & H). cbn [fst snd].
  destruct r as [[|]|e]; [| |done].
  - destruct H as (_ & n & e & Hn & He & Hm). exists n, e.
    split_and!; [congruence | done | done].
  - destruct H as (_ & _ & _ & Hm). intros m Hlt. apply Hm. lia.
Qed.

(** X12: [run] works on one child at a time.  In the log of its calls the
    children come in the order of their launch: once a call concerns a
    child, no later call concerns an earlier child, so nothing is written
    to a child, closed or joined after the next child has been launched.
    Every call concerns a child that was launched. *)
Theorem run_children_in_turn (env : Env) (par : Element)
    (bs : list string) :
  serial 0 (log (run env par bs).2)
  /\ below (spawned (run env par bs).2) (log (run env par bs).2).
Proof.
  destruct (TurnFacts.run_serial env par bs) as (H1 & H2 & _). by split.
Qed.

(** X13: whatever the child prints and the host parser does, every call
    [parseChunk(cell, txt)] that [run] makes is made on a cell whose text
    has been set to the empty string. *)
Theorem run_host_cells_emptied (env : Env) (par : Element)
    (bs : list string) :
  Forall (fun ev => forall c t, ev = ParseChunk c t -> text c = Some "")
    (log (run env par bs).2).
Proof. apply TurnFacts.run_serial. Qed.
